(** * avatarlib: bit-packed avatars, their accessors and generators

    A shallow embedding of [avatarlib/main.go] and the properties of its
    pixel grid, fill algorithms, keyed construction and path helper.

    Conventions of the embedding:
    - Go's [int] is the 64-bit two's complement integer of the 64-bit
      ports; an [int] is a [Z] and every arithmetic operation writes its
      wrap-around out ([GoInt.wrap]).
    - a [byte] is a [Z] in [0, 256); a [[]byte] is a [list Z].
    - a Go function that can panic returns an [option] or a [result] with
      a [Panic] case; the in-place update of [a.Pixels] is state passing.
    - [crypto/rand] is an explicit entropy state threaded through the
      generators: the bytes it will supply and a count of the reads.
    - [path/filepath] is the Unix one, separator [/]. *)

From stdpp Require Import base list strings.
From Stdlib Require Import ZArith Lia Ascii DecimalString.

Local Open Scope Z_scope.

(** ** Machine integers *)

Module GoInt.

Definition min_int : Z := - 2 ^ 63.
Definition max_int : Z := 2 ^ 63 - 1.

(** Reduction of a mathematical integer to the [int] it is stored as. *)
Definition wrap (z : Z) : Z := (z + 2 ^ 63) mod 2 ^ 64 - 2 ^ 63.

Definition add (a b : Z) : Z := wrap (a + b).
Definition sub (a b : Z) : Z := wrap (a - b).
Definition mul (a b : Z) : Z := wrap (a * b).

(** [a / b] and [a % b] truncate toward zero. *)
Definition quot (a b : Z) : Z := wrap (Z.quot a b).
Definition rem (a b : Z) : Z := Z.rem a b.

(** The conversion [uint(a)]. *)
Definition to_uint (a : Z) : Z := a mod 2 ^ 64.

(** [v << k] at type [byte], for a shift count [k] of type [uint]:
    the bits shifted past position 7 are lost, so a count of 8 or
    more leaves 0. *)
Definition shl8 (v k : Z) : Z :=
  if k <? 8 then Z.shiftl v k mod 256 else 0.

End GoInt.

(** ** Byte slices *)

(** The Go runtime refuses an allocation of more than [maxAlloc] bytes
    ([runtime.maxAlloc], [1 << 48] on the 64-bit ports), so no [[]byte]
    is longer than that. *)
Definition maxAlloc : Z := 2 ^ 48.

Definition len (s : list Z) : Z := Z.of_nat (length s).

(** [make([]byte, n)]: panics ([None]) on a negative or too large [n]. *)
Definition make_bytes (n : Z) : option (list Z) :=
  if (n <? 0) || (maxAlloc <? n) then None
  else Some (replicate (Z.to_nat n) 0).

(** [s[i]] as an operand: panics ([None]) when [i] is out of range. *)
Definition index (s : list Z) (i : Z) : option Z :=
  if i <? 0 then None else s !! Z.to_nat i.

(** ** The pixel grid *)

Record Avatar : Type := mkAvatar {
  Width  : Z;
  Height : Z;
  Pixels : list Z
}.

Definition out_of_bounds (a : Avatar) (x y : Z) : bool :=
  (x <? 0) || (x >=? Width a) || (y <? 0) || (y >=? Height a).

(** The three locals of [GetPixel] and [SetPixel]. *)
Definition pixel_idx (a : Avatar) (x y : Z) : Z :=
  GoInt.add (GoInt.mul y (Width a)) x.
Definition byte_idx (idx : Z) : Z := GoInt.quot idx 8.
Definition bit_idx (idx : Z) : Z := GoInt.to_uint (GoInt.rem idx 8).

Definition GetPixel (a : Avatar) (x y : Z) : option bool :=
  if out_of_bounds a x y then Some false
  else
    let idx := pixel_idx a x y in
    let byteIdx := byte_idx idx in
    let bitIdx := bit_idx idx in
    match index (Pixels a) byteIdx with
    | None => None
    | Some b => Some (negb (Z.land b (GoInt.shl8 1 bitIdx) =? 0))
    end.

Definition SetPixel (a : Avatar) (x y : Z) (val : bool) : option Avatar :=
  if out_of_bounds a x y then Some a
  else
    let idx := pixel_idx a x y in
    let byteIdx := byte_idx idx in
    let bitIdx := bit_idx idx in
    match index (Pixels a) byteIdx with
    | None => None
    | Some b =>
        let b' := if val then Z.lor b (GoInt.shl8 1 bitIdx)
                  else Z.ldiff b (GoInt.shl8 1 bitIdx) in
        Some {| Width := Width a; Height := Height a;
                Pixels := <[Z.to_nat byteIdx := b']> (Pixels a) |}
    end.

(** A run of [SetPixel] calls, stopping at the first panic. *)
Fixpoint set_pixels (ops : list (Z * Z * bool)) (a : Avatar) : option Avatar :=
  match ops with
  | [] => Some a
  | (x, y, v) :: ops' =>
      match SetPixel a x y v with
      | None => None
      | Some a' => set_pixels ops' a'
      end
  end.

(** ** Vocabulary of the statements *)

(** [ceil(n/8)]. *)
Definition ceil8 (n : Z) : Z := (n + 7) / 8.

(** The buffer holds exactly [ceil(width*height/8)] bytes. *)
Definition packed (a : Avatar) : Prop :=
  len (Pixels a) = ceil8 (Width a * Height a).

(** The buffer is one the runtime can hold. *)
Definition allocated (a : Avatar) : Prop := len (Pixels a) <= maxAlloc.

Definition in_bounds (a : Avatar) (x y : Z) : Prop :=
  0 <= x < Width a /\ 0 <= y < Height a.

(** Bit [i] of the buffer in row-major order, least significant bit of
    each byte first. *)
Definition buffer_bit (s : list Z) (i : Z) : bool :=
  Z.testbit (s !!! Z.to_nat (i / 8)) (i mod 8).

(** The dimensions are [width] and [height] and the buffer is the one
    the generators allocate for them. *)
Definition shaped (width height : Z) (a : Avatar) : Prop :=
  Width a = width /\ Height a = height /\ packed a /\ allocated a.

(** [width*height + 7], the largest value the generators compute for
    the size of the buffer, is an [int]. *)
Definition no_overflow (width height : Z) : Prop :=
  width * height + 7 <= GoInt.max_int.

(** [ceil(width/2)], the number of columns of the left half. *)
Definition half_width (width : Z) : Z := (width + 1) / 2.

(** The column of the left half that column [x] is a copy of. *)
Definition mirror_col (width x : Z) : Z := Z.min x (width - 1 - x).

(** The bit a random byte contributes: [(b & 1) == 1]. *)
Definition low_bit (b : Z) : bool := Z.land b 1 =? 1.

(** ** Errors, results and the entropy source *)

(** Go's [error] values as the code builds them: [errors.New(msg)],
    [fmt.Errorf(msg + "%w", cause)], and the opaque failure of the
    entropy source. *)
Inductive error : Type :=
  | errors_New (msg : string)
  | fmt_Errorf_w (msg : string) (cause : error)
  | rand_failure.

Definition InvalidDimensions : error := errors_New "invalid dimensions".

(** What a call returning a pointer and an [error] does: it returns the
    pair (with [None] for [nil]) or panics. *)
Inductive result (T : Type) : Type :=
  | Return (v : option T) (err : option error)
  | Panic.
Arguments Return {T} v err.
Arguments Panic {T}.

(** The entropy source: the bytes it will still supply and the number of
    [rand.Read] calls made so far. *)
Record Entropy : Type := mkEntropy {
  pool  : list Z;
  reads : nat
}.

(** [rand.Read(b)]: fills all of [b] or fails, when the source cannot
    supply [len(b)] bytes. The failure is the one of [crypto/rand]
    before Go 1.24, which hands the error of the source back to the
    caller; from Go 1.24 on a failing source ends the process inside
    [Read] and no caller sees a result. The two agree whenever the
    source supplies the bytes. *)
Definition rand_Read (b : list Z) (e : Entropy)
  : list Z * option error * Entropy :=
  let n := length b in
  if decide (n <= length (pool e))%nat
  then (take n (pool e), None,
        {| pool := drop n (pool e); reads := S (reads e) |})
  else (b, Some rand_failure,
        {| pool := pool e; reads := S (reads e) |}).

(** The errors the two fills make of a failed read. *)
Definition generation_failed : error :=
  fmt_Errorf_w "random generation failed: " rand_failure.
Definition read_failed : error :=
  fmt_Errorf_w "random read failed: " rand_failure.

(** ** Random fill *)

Definition GenerateAvatar (width height : Z) (e : Entropy)
  : result Avatar * Entropy :=
  if (width <=? 0) || (height <=? 0)
  then (Return None (Some (errors_New "invalid dimensions")), e)
  else
    let bits := GoInt.mul width height in
    let bytesLen := GoInt.quot (GoInt.add bits 7) 8 in
    match make_bytes bytesLen with
    | None => (Panic, e)
    | Some pixels =>
        match rand_Read pixels e with
        | (_, Some err, e') =>
            (Return None
               (Some (fmt_Errorf_w "random generation failed: " err)), e')
        | (pixels', None, e') =>
            (Return (Some {| Width := width; Height := height;
                             Pixels := pixels' |}) None, e')
        end
    end.

(** ** Mirrored fill *)

(** State of the nested loops: still running with the avatar built so
    far, or left by an early [return] or a panic. *)
Inductive loop : Type :=
  | Next (a : Avatar) (e : Entropy)
  | Stop (r : result Avatar) (e : Entropy).

(** The body of the inner loop at column [x] of row [y]. *)
Definition symmetric_body (width x y : Z) (a : Avatar) (e : Entropy) : loop :=
  match make_bytes 1 with
  | None => Stop Panic e
  | Some b =>
      match rand_Read b e with
      | (_, Some err, e') =>
          Stop (Return None
                  (Some (fmt_Errorf_w "random read failed: " err))) e'
      | (b', None, e') =>
          match index b' 0 with
          | None => Stop Panic e'
          | Some b0 =>
              let val := Z.land b0 1 =? 1 in
              match SetPixel a x y val with
              | None => Stop Panic e'
              | Some a1 =>
                  let mirrorX := GoInt.sub (GoInt.sub width 1) x in
                  if mirrorX =? x then Next a1 e'
                  else
                    match SetPixel a1 mirrorX y val with
                    | None => Stop Panic e'
                    | Some a2 => Next a2 e'
                    end
              end
          end
      end
  end.

(** [for x := x0; x < halfWidth; x++ { body }] with [n] iterations
    left, that is [n = halfWidth - x0] (none when that is negative):
    the guard holds for exactly the next [n] values of [x], and below
    [halfWidth] the increment cannot wrap. *)
Fixpoint symmetric_row (n : nat) (width x y : Z) (a : Avatar) (e : Entropy)
  : loop :=
  match n with
  | O => Next a e
  | S n' =>
      match symmetric_body width x y a e with
      | Stop r e' => Stop r e'
      | Next a' e' => symmetric_row n' width (GoInt.add x 1) y a' e'
      end
  end.

(** [for y := y0; y < height; y++ { inner loop }] with [m] rows left,
    that is [m = height - y0]. *)
Fixpoint symmetric_rows (m : nat) (width halfWidth y : Z)
    (a : Avatar) (e : Entropy) : loop :=
  match m with
  | O => Next a e
  | S m' =>
      match symmetric_row (Z.to_nat halfWidth) width 0 y a e with
      | Stop r e' => Stop r e'
      | Next a' e' =>
          symmetric_rows m' width halfWidth (GoInt.add y 1) a' e'
      end
  end.

Definition GenerateSymmetric (width height : Z) (e : Entropy)
  : result Avatar * Entropy :=
  if (width <=? 0) || (height <=? 0)
  then (Return None (Some (errors_New "invalid dimensions")), e)
  else
    match make_bytes
            (GoInt.quot (GoInt.add (GoInt.mul width height) 7) 8) with
    | None => (Panic, e)
    | Some pixels =>
        let a := {| Width := width; Height := height; Pixels := pixels |} in
        let halfWidth := GoInt.quot (GoInt.add width 1) 2 in
        match symmetric_rows (Z.to_nat height) width halfWidth 0 a e with
        | Stop r e' => (r, e')
        | Next a' e' => (Return (Some a') None, e')
        end
    end.

(** ** Keyed construction *)

Record KeyAvatar : Type := mkKeyAvatar {
  Key : string;
  KeyAvatar_Avatar : option Avatar   (* the [*Avatar] field, [None] for nil *)
}.

Definition GenerateKeyAvatar (key : string) (width height : Z)
    (method : string) (e : Entropy) : result KeyAvatar * Entropy :=
  let '(r, e') :=
    if String.eqb method "symmetric" then GenerateSymmetric width height e
    else if String.eqb method "none" || String.eqb method ""
         then GenerateAvatar width height e      (* fallthrough *)
         else GenerateAvatar width height e      (* default *)
  in
  match r with
  | Panic => (Panic, e')
  | Return avatar (Some err) => (Return None (Some err), e')
  | Return avatar None =>
      (Return (Some {| Key := key; KeyAvatar_Avatar := avatar |}) None, e')
  end.

(** What [GenerateKeyAvatar] makes of the outcome of the fill it chose:
    a panic stays a panic, an error is handed on as it is with no keyed
    avatar, and an avatar is paired with the key. *)
Definition keyed (key : string) (fill : result Avatar * Entropy)
  : result KeyAvatar * Entropy :=
  match fill with
  | (Panic, e') => (Panic, e')
  | (Return _ (Some err), e') => (Return None (Some err), e')
  | (Return avatar None, e') =>
      (Return (Some {| Key := key; KeyAvatar_Avatar := avatar |}) None, e')
  end.

(** ** Paths *)

(** [path/filepath] on a Unix port, after the documentation of [Clean]
    and [Join] in Go's standard library. *)
Module filepath.

Definition Separator : ascii := "/"%char.

Definition IsPathSeparator (c : ascii) : bool := Ascii.eqb c Separator.

(** The elements of a path: the runs of bytes between separators. *)
Fixpoint elements (path : string) : list string :=
  match path with
  | EmptyString => [EmptyString]
  | String c rest =>
      if IsPathSeparator c then EmptyString :: elements rest
      else match elements rest with
           | [] => [String c EmptyString]
           | el :: els => String c el :: els
           end
  end.

(** [strings.Join(elems, sep)]. *)
Fixpoint strings_Join (elems : list string) (sep : string) : string :=
  match elems with
  | [] => EmptyString
  | [el] => el
  | el :: els => el +:+ sep +:+ strings_Join els sep
  end.

(** One element read by [Clean]; [out] holds the elements kept so far,
    last one first. Empty and [.] elements are dropped; [..] removes
    the element before it, is dropped at the root, and is kept at the
    start of a relative path. *)
Definition clean_element (rooted : bool) (out : list string) (el : string)
  : list string :=
  if String.eqb el "" then out
  else if String.eqb el "." then out
  else if String.eqb el ".." then
    match out with
    | top :: below => if String.eqb top ".." then el :: out else below
    | [] => if rooted then out else el :: out
    end
  else el :: out.

Definition Clean (path : string) : string :=
  match path with
  | EmptyString => "."
  | String c _ =>
      let rooted := IsPathSeparator c in
      let out := foldl (clean_element rooted) [] (elements path) in
      let body := strings_Join (rev out) (String Separator EmptyString) in
      if rooted then String Separator body
      else if String.eqb body "" then "." else body
  end.

(** [Join(elem...)]: leading empty elements are ignored, the rest is
    joined by the separator and cleaned. *)
Fixpoint Join (elem : list string) : string :=
  match elem with
  | [] => EmptyString
  | el :: rest =>
      if String.eqb el "" then Join rest
      else Clean (strings_Join elem (String Separator EmptyString))
  end.

End filepath.

(** A path element that [Clean] keeps as it is: no separator in it,
    and not empty, [.] or [..]. *)
Fixpoint has_separator (s : string) : bool :=
  match s with
  | EmptyString => false
  | String c rest => filepath.IsPathSeparator c || has_separator rest
  end.

Definition plain_element (el : string) : Prop :=
  has_separator el = false /\ el <> "" /\ el <> "." /\ el <> "..".

Definition GetAvatarPath (folder key : string) : string :=
  filepath.Join [folder; key +:+ ".png"].

(** The part of a cleaned path that comes before the file name: the
    root, the elements [Clean] keeps of the folder, and a separator
    after them when there are any. *)
Definition folder_prefix (folder : string) : string :=
  let rooted := match folder with
                | String c _ => filepath.IsPathSeparator c
                | EmptyString => false
                end in
  let out := foldl (filepath.clean_element rooted) []
               (filepath.elements folder) in
  (if rooted then "/" else "")
  +:+ match out with
      | [] => ""
      | _ => filepath.strings_Join (rev out) "/" +:+ "/"
      end.

(** ** Rasters *)

(** [s[i] = v]: panics ([None]) when [i] is out of range. *)
Definition store (s : list Z) (i v : Z) : option (list Z) :=
  if (i <? 0) || (len s <=? i) then None
  else Some (<[Z.to_nat i := v]> s).

(** The part of Go's [image] package that [RenderPNG] uses, after the
    standard library: rectangles and 8-bit grayscale images. *)
Module image.

Record Rectangle : Type := mkRectangle {
  Min_X : Z; Min_Y : Z;
  Max_X : Z; Max_Y : Z
}.

(** [image.Rect(x0, y0, x1, y1)] puts the corners in order. *)
Definition Rect (x0 y0 x1 y1 : Z) : Rectangle :=
  let '(x0, x1) := if x0 >? x1 then (x1, x0) else (x0, x1) in
  let '(y0, y1) := if y0 >? y1 then (y1, y0) else (y0, y1) in
  {| Min_X := x0; Min_Y := y0; Max_X := x1; Max_Y := y1 |}.

Definition Dx (r : Rectangle) : Z := GoInt.sub (Max_X r) (Min_X r).
Definition Dy (r : Rectangle) : Z := GoInt.sub (Max_Y r) (Min_Y r).

(** [mul3NonNeg]: the product, or -1 when an argument is negative or
    the product does not fit an [int]; the two 64 x 64 bit products are
    taken with [bits.Mul64], whose high word is the quotient by [2^64]. *)
Definition mul3NonNeg (x y z : Z) : Z :=
  if (x <? 0) || (y <? 0) || (z <? 0) then -1
  else
    let hi := (x * y) / 2 ^ 64 in
    let lo := (x * y) mod 2 ^ 64 in
    if negb (hi =? 0) then -1
    else
      let hi' := (lo * (z mod 2 ^ 64)) / 2 ^ 64 in
      let lo' := (lo * (z mod 2 ^ 64)) mod 2 ^ 64 in
      if negb (hi' =? 0) then -1
      else
        let a := GoInt.wrap lo' in
        if (a <? 0) || negb (GoInt.to_uint a =? lo') then -1 else a.

(** [pixelBufferLength]: panics ([None]) on a negative length. *)
Definition pixelBufferLength (bytesPerPixel : Z) (r : Rectangle) : option Z :=
  let totalLength := mul3NonNeg bytesPerPixel (Dx r) (Dy r) in
  if totalLength <? 0 then None else Some totalLength.

Record Gray : Type := mkGray {
  Pix : list Z;
  Stride : Z;
  Gray_Rect : Rectangle
}.

Definition NewGray (r : Rectangle) : option Gray :=
  match pixelBufferLength 1 r with
  | None => None
  | Some n =>
      match make_bytes n with
      | None => None
      | Some pix =>
          Some {| Pix := pix; Stride := GoInt.mul 1 (Dx r); Gray_Rect := r |}
      end
  end.

(** [Point{x, y}.In(r)]. *)
Definition In (x y : Z) (r : Rectangle) : bool :=
  (Min_X r <=? x) && (x <? Max_X r) && (Min_Y r <=? y) && (y <? Max_Y r).

Definition PixOffset (p : Gray) (x y : Z) : Z :=
  GoInt.add (GoInt.mul (GoInt.sub y (Min_Y (Gray_Rect p))) (Stride p))
            (GoInt.mul (GoInt.sub x (Min_X (Gray_Rect p))) 1).

(** [p.SetGray(x, y, color.Gray{Y: c})]: ignored outside the bounds. *)
Definition SetGray (p : Gray) (x y c : Z) : option Gray :=
  if negb (In x y (Gray_Rect p)) then Some p
  else
    let i := PixOffset p x y in
    match store (Pix p) i c with
    | None => None
    | Some pix =>
        Some {| Pix := pix; Stride := Stride p; Gray_Rect := Gray_Rect p |}
    end.

End image.

(** ** The collaborators outside the library *)

(** What a call returning only an [error] does. *)
Inductive status : Type :=
  | Returns (err : option error)
  | Panics.

(** The PNG encoder and the file system are not part of the library;
    every function that uses them takes them as a [Platform]:
    [png.Encode] as a function from the image to the bytes written and
    the error, and [os.MkdirAll], [os.WriteFile] and [os.Remove] as
    transitions of a state of the outside world. *)
Record Platform : Type := mkPlatform {
  png_Encode : image.Gray -> list Z * option error;
  World : Type;
  os_MkdirAll : string -> Z -> World -> option error * World;
  os_WriteFile : string -> list Z -> Z -> World -> option error * World;
  os_Remove : string -> World -> option error * World
}.

(** ** Rendering *)

(** The body of the inner loop of [RenderPNG] at [(x, y)]. *)
Definition render_pixel (a : Avatar) (x y : Z) (img : image.Gray)
  : option image.Gray :=
  match GetPixel a x y with
  | None => None
  | Some true => image.SetGray img x y 255
  | Some false => image.SetGray img x y 0
  end.

(** [for x := x0; x < a.Width; x++ { body }] with [n] iterations left. *)
Fixpoint render_row (n : nat) (x y : Z) (a : Avatar) (img : image.Gray)
  : option image.Gray :=
  match n with
  | O => Some img
  | S n' =>
      match render_pixel a x y img with
      | None => None
      | Some img' => render_row n' (GoInt.add x 1) y a img'
      end
  end.

(** [for y := y0; y < a.Height; y++ { inner loop }] with [m] rows left. *)
Fixpoint render_rows (m : nat) (y : Z) (a : Avatar) (img : image.Gray)
  : option image.Gray :=
  match m with
  | O => Some img
  | S m' =>
      match render_row (Z.to_nat (Width a)) 0 y a img with
      | None => None
      | Some img' => render_rows m' (GoInt.add y 1) a img'
      end
  end.

(** The image [RenderPNG] hands to the encoder, [None] for a panic. *)
Definition raster (a : Avatar) : option image.Gray :=
  match image.NewGray (image.Rect 0 0 (Width a) (Height a)) with
  | None => None
  | Some img => render_rows (Z.to_nat (Height a)) 0 a img
  end.

Definition RenderPNG (P : Platform) (a : Avatar) : result (list Z) :=
  match raster a with
  | None => Panic
  | Some img =>
      match png_Encode P img with
      | (_, Some err) => Return None (Some err)
      | (bytes, None) => Return (Some bytes) None
      end
  end.

(** ** Persistence *)

(** [0755] and [0644]. *)
Definition perm_dir : Z := 493.
Definition perm_file : Z := 420.

Definition SaveAvatar (P : Platform) (folder : string) (ka : KeyAvatar)
    (w : World P) : status * World P :=
  match KeyAvatar_Avatar ka with
  | None => (Panics, w)            (* [RenderPNG] reads through nil *)
  | Some a =>
      match RenderPNG P a with
      | Panic => (Panics, w)
      | Return _ (Some err) => (Returns (Some err), w)
      | Return pngData None =>
          match os_MkdirAll P folder perm_dir w with
          | (Some err, w1) => (Returns (Some err), w1)
          | (None, w1) =>
              let filename := filepath.Join [folder; Key ka +:+ ".png"] in
              let '(err, w2) :=
                os_WriteFile P filename (default [] pngData) perm_file w1 in
              (Returns err, w2)
          end
      end
  end.

Definition DeleteAvatar (P : Platform) (folder key : string) (w : World P)
  : status * World P :=
  let filename := filepath.Join [folder; key +:+ ".png"] in
  let '(err, w') := os_Remove P filename w in
  (Returns err, w').

(** ** Markup *)

(** The verb [%d] on an [int]: decimal digits, a minus sign before a
    negative number. *)
Definition fmt_d (n : Z) : string := NilZero.string_of_int (Z.to_int n).

(** The double quote character, byte 34. *)
Definition dquote : ascii := "034"%char.

Definition GetAvatarHTML (baseURL key : string) (width height : Z) : string :=
  "<img src=" +:+ String dquote (baseURL +:+ key +:+ ".png"
  +:+ String dquote (" width=" +:+ String dquote (fmt_d width
  +:+ String dquote (" height=" +:+ String dquote (fmt_d height
  +:+ String dquote (" alt=" +:+ String dquote ("Avatar " +:+ key
  +:+ String dquote ">"))))))).

(** The number of occurrences of a character in a string. *)
Fixpoint count_char (c : ascii) (s : string) : nat :=
  match s with
  | EmptyString => O
  | String c' rest =>
      ((if Ascii.eqb c c' then 1 else 0) + count_char c rest)%nat
  end.

(** A slice of bytes: every element in [0, 256). *)
Definition is_bytes (s : list Z) : Prop := Forall (fun b => 0 <= b < 256) s.

(** [SetPixel] on the buffer alone: bit [i] of [s] set or cleared. *)
Definition write_bit (s : list Z) (i : Z) (v : bool) : list Z :=
  let k := Z.to_nat (i / 8) in
  <[k := if v then Z.lor (s !!! k) (2 ^ (i mod 8))
         else Z.ldiff (s !!! k) (2 ^ (i mod 8))]> s.

(** Go's convention for a call returning a value and an [error]:
    exactly one of the two is nil. *)
Definition one_of_value_and_error {T : Type} (r : result T) : Prop :=
  match r with
  | Return (Some _) None | Return None (Some _) | Panic => True
  | Return (Some _) (Some _) | Return None None => False
  end.

(** The gray level [RenderPNG] gives a pixel. *)
Definition shade (b : bool) : Z := if b then 255 else 0.

(** The rectangle of the image of an avatar of positive dimensions,
    and what the loops of [RenderPNG] keep of the image: its stride,
    its rectangle and the length of its pixel buffer. *)
Definition raster_bounds (a : Avatar) : image.Rectangle :=
  {| image.Min_X := 0; image.Min_Y := 0;
     image.Max_X := Width a; image.Max_Y := Height a |}.

Definition raster_inv (a : Avatar) (img : image.Gray) : Prop :=
  image.Stride img = Width a /\ image.Gray_Rect img = raster_bounds a
  /\ len (image.Pix img) = Width a * Height a.

(** A platform to run the examples on: the encoder hands the pixel
    buffer of the image on as it is, folders need no creating, and the
    world is the list of the files written, by path. *)
Definition not_exist : error := errors_New "file does not exist".

Fixpoint remove_file (path : string) (files : list (string * list Z))
  : option (list (string * list Z)) :=
  match files with
  | [] => None
  | (p, d) :: rest =>
      if String.eqb p path then Some rest
      else match remove_file path rest with
           | None => None
           | Some rest' => Some ((p, d) :: rest')
           end
  end.

Definition memory_platform : Platform :=
  {| png_Encode := fun img => (image.Pix img, None);
     World := list (string * list Z);
     os_MkdirAll := fun _ _ w => (None, w);
     os_WriteFile := fun path data _ w =>
       (None, (path, data) :: default w (remove_file path w));
     os_Remove := fun path w =>
       match remove_file path w with
       | None => (Some not_exist, w)
       | Some w' => (None, w')
       end |}.

(** * Properties *)

(** ** The model on concrete inputs *)

(** Width 3, height 2, random bytes 1, 0, 1, 1: rows [1 0 1] and
    [1 1 1], packed least significant bit first. *)
Example GenerateSymmetric_3_2 :
  GenerateSymmetric 3 2 (mkEntropy [1; 0; 1; 1] 0)
  = (Return (Some {| Width := 3; Height := 2; Pixels := [61] |}) None,
     mkEntropy [] 4).
Proof. vm_compute. reflexivity. Qed.

(** The 2 x 2 mirrored grid whose left-half bits are all set reads
    [true, true] on both rows. *)
Example GenerateSymmetric_2_2 :
  match GenerateSymmetric 2 2 (mkEntropy [1; 1] 0) with
  | (Return (Some a) None, _) =>
      [GetPixel a 0 0; GetPixel a 1 0; GetPixel a 0 1; GetPixel a 1 1]
      = [Some true; Some true; Some true; Some true]
  | _ => False
  end.
Proof. vm_compute. reflexivity. Qed.

Example GenerateAvatar_3_3 :
  GenerateAvatar 3 3 (mkEntropy [170; 85; 7] 0)
  = (Return (Some {| Width := 3; Height := 3; Pixels := [170; 85] |}) None,
     mkEntropy [7] 1).
Proof. vm_compute. reflexivity. Qed.

Example GetPixel_short_buffer :
  GetPixel {| Width := 4; Height := 4; Pixels := [255] |} 0 2 = None.
Proof. vm_compute. reflexivity. Qed.

Example Clean_examples :
  filepath.Clean "/a//b/../c/" = "/a/c"
  /\ filepath.Clean "../x/../../k" = "../../k"
  /\ filepath.Clean "/../a" = "/a"
  /\ filepath.Clean "a/.." = "."
  /\ filepath.Clean "" = ".".
Proof. split_and!; vm_compute; reflexivity. Qed.


(** ** Integer arithmetic without overflow *)

Lemma wrap_small (z : Z) :
  GoInt.min_int <= z <= GoInt.max_int -> GoInt.wrap z = z.
Proof.
  unfold GoInt.wrap, GoInt.min_int, GoInt.max_int. intros Hz.
  rewrite Z.mod_small by lia. lia.
Qed.

Lemma ceil8_bounds (n : Z) : n <= 8 * ceil8 n < n + 8.
Proof. unfold ceil8. Z.div_mod_to_equations. lia. Qed.

Lemma shl8_one (k : Z) : 0 <= k < 8 -> GoInt.shl8 1 k = 2 ^ k.
Proof.
  intros Hk. unfold GoInt.shl8.
  destruct (Z.ltb_spec k 8) as [_|]; [|lia].
  rewrite Z.shiftl_1_l. apply Z.mod_small.
  split; [apply Z.pow_nonneg; lia|].
  change 256 with (2 ^ 8). apply Z.pow_lt_mono_r; lia.
Qed.

Lemma land_pow2_testbit (b k : Z) :
  0 <= k -> negb (Z.land b (2 ^ k) =? 0) = Z.testbit b k.
Proof.
  intros Hk. destruct (Z.testbit b k) eqn:Hb.
  - destruct (Z.eqb_spec (Z.land b (2 ^ k)) 0) as [H0|]; [|done].
    assert (Z.testbit (Z.land b (2 ^ k)) k = false) as Hf
      by (rewrite H0; apply Z.bits_0).
    rewrite Z.land_spec, Hb, Z.pow2_bits_true in Hf by lia. done.
  - destruct (Z.eqb_spec (Z.land b (2 ^ k)) 0) as [|Hne]; [done|].
    exfalso. apply Hne. apply Z.bits_inj'. intros j Hj.
    rewrite Z.land_spec, Z.bits_0, Z.pow2_bits_eqb by lia.
    destruct (Z.eqb_spec k j) as [->|]; [by rewrite Hb|].
    apply andb_false_r.
Qed.

Lemma testbit_set (b k j : Z) (v : bool) :
  0 <= k -> 0 <= j ->
  Z.testbit (if v then Z.lor b (2 ^ k) else Z.ldiff b (2 ^ k)) j
  = if decide (j = k) then v else Z.testbit b j.
Proof.
  intros Hk Hj. destruct v.
  - rewrite Z.lor_spec, Z.pow2_bits_eqb by lia.
    case_decide as Hjk; [subst; rewrite Z.eqb_refl; apply orb_true_r|].
    destruct (Z.eqb_spec k j); [lia|apply orb_false_r].
  - rewrite Z.ldiff_spec, Z.pow2_bits_eqb by lia.
    case_decide as Hjk; [subst; rewrite Z.eqb_refl; apply andb_false_r|].
    destruct (Z.eqb_spec k j); [lia|apply andb_true_r].
Qed.

(** ** The accessors on a packed buffer *)

Section Accessors.

Variable a : Avatar.
Hypothesis Hpacked : packed a.
Hypothesis Halloc : allocated a.

Lemma bits_fit : Width a * Height a <= 8 * maxAlloc.
Proof.
  pose proof (ceil8_bounds (Width a * Height a)) as Hc.
  red in Hpacked, Halloc. lia.
Qed.

Section InBounds.

Variables x y : Z.
Hypothesis Hin : in_bounds a x y.

Lemma in_bounds_check : out_of_bounds a x y = false.
Proof. unfold out_of_bounds. destruct Hin. lia. Qed.

Lemma idx_range : 0 <= y * Width a + x < Width a * Height a.
Proof. destruct Hin. nia. Qed.

Lemma pixel_idx_exact : pixel_idx a x y = y * Width a + x.
Proof.
  pose proof idx_range as Hr. pose proof bits_fit as Hf.
  destruct Hin as [Hx Hy].
  assert (0 <= y * Width a <= y * Width a + x) by nia.
  unfold pixel_idx, GoInt.add, GoInt.mul, maxAlloc in *.
  rewrite (wrap_small (y * Width a))
    by (unfold GoInt.min_int, GoInt.max_int; lia).
  apply wrap_small. unfold GoInt.min_int, GoInt.max_int. lia.
Qed.

Lemma byte_idx_exact :
  byte_idx (pixel_idx a x y) = (y * Width a + x) / 8.
Proof.
  pose proof idx_range as Hr. pose proof bits_fit as Hf.
  rewrite pixel_idx_exact. unfold byte_idx, GoInt.quot.
  rewrite Z.quot_div_nonneg by lia.
  apply wrap_small. unfold GoInt.min_int, GoInt.max_int, maxAlloc in *.
  Z.div_mod_to_equations. lia.
Qed.

Lemma bit_idx_exact :
  bit_idx (pixel_idx a x y) = (y * Width a + x) mod 8.
Proof.
  pose proof idx_range as Hr.
  rewrite pixel_idx_exact. unfold bit_idx, GoInt.rem, GoInt.to_uint.
  rewrite Z.rem_mod_nonneg by lia.
  apply Z.mod_small. Z.div_mod_to_equations. lia.
Qed.

Lemma byte_idx_in_buffer :
  0 <= (y * Width a + x) / 8 < len (Pixels a).
Proof.
  pose proof idx_range as Hr.
  pose proof (ceil8_bounds (Width a * Height a)) as Hc.
  red in Hpacked. rewrite Hpacked.
  Z.div_mod_to_equations. lia.
Qed.

Lemma index_in_buffer :
  exists b, Pixels a !! Z.to_nat ((y * Width a + x) / 8) = Some b
    /\ index (Pixels a) (byte_idx (pixel_idx a x y)) = Some b.
Proof.
  pose proof byte_idx_in_buffer as Hb. unfold len in Hb.
  destruct (lookup_lt_is_Some_2 (Pixels a)
              (Z.to_nat ((y * Width a + x) / 8))) as [b Hl]; [lia|].
  exists b. split; [done|].
  rewrite byte_idx_exact. unfold index.
  destruct (Z.ltb_spec ((y * Width a + x) / 8) 0); [lia|done].
Qed.

Lemma GetPixel_in_bounds :
  GetPixel a x y = Some (buffer_bit (Pixels a) (y * Width a + x)).
Proof.
  destruct index_in_buffer as (b & Hl & Hi).
  pose proof idx_range as Hr.
  unfold GetPixel. rewrite in_bounds_check. cbv zeta.
  rewrite Hi, bit_idx_exact, shl8_one by (apply Z.mod_pos_bound; lia).
  rewrite land_pow2_testbit by (apply Z.mod_pos_bound; lia).
  unfold buffer_bit. by rewrite (list_lookup_total_correct _ _ _ Hl).
Qed.

Lemma SetPixel_in_bounds (v : bool) :
  exists a',
    SetPixel a x y v = Some a'
    /\ Width a' = Width a /\ Height a' = Height a
    /\ length (Pixels a') = length (Pixels a)
    /\ (forall k : nat, k <> Z.to_nat ((y * Width a + x) / 8) ->
          Pixels a' !! k = Pixels a !! k)
    /\ (forall j, 0 <= j ->
          buffer_bit (Pixels a') j
          = if decide (j = y * Width a + x) then v
            else buffer_bit (Pixels a) j).
Proof.
  destruct index_in_buffer as (b & Hl & Hi).
  pose proof idx_range as Hr. pose proof byte_idx_in_buffer as Hb.
  unfold SetPixel. rewrite in_bounds_check. cbv zeta.
  rewrite Hi, bit_idx_exact, shl8_one by (apply Z.mod_pos_bound; lia).
  rewrite byte_idx_exact.
  eexists. split; [done|]. cbn [Width Height Pixels].
  split; [done|]. split; [done|]. split; [apply length_insert|].
  split; [intros k Hk; by apply list_lookup_insert_ne|].
  intros j Hj. unfold buffer_bit.
  set (i := y * Width a + x) in *.
  destruct (decide (Z.to_nat (j / 8) = Z.to_nat (i / 8))) as [Heq|Hne].
  - rewrite Heq.
    erewrite (list_lookup_total_correct (<[_ := _]> _));
      [|apply list_lookup_insert_eq; unfold len in Hb; lia].
    rewrite (list_lookup_total_correct _ _ _ Hl).
    rewrite testbit_set
      by (apply Z.mod_pos_bound; lia).
    assert (j / 8 = i / 8) by (Z.div_mod_to_equations; lia).
    repeat case_decide; try done; exfalso;
      Z.div_mod_to_equations; lia.
  - rewrite list_lookup_total_insert_ne by done.
    case_decide; [subst; done|done].
Qed.

End InBounds.

End Accessors.

(** [SetPixel] never changes the dimensions or the length of the buffer. *)
Lemma SetPixel_shape (a a' : Avatar) (x y : Z) (v : bool) :
  SetPixel a x y v = Some a' ->
  Width a' = Width a /\ Height a' = Height a
  /\ length (Pixels a') = length (Pixels a).
Proof.
  unfold SetPixel. destruct (out_of_bounds a x y).
  - by intros [= <-].
  - cbv zeta. destruct (index _ _); [|done]. intros [= <-].
    cbn [Width Height Pixels]. by rewrite length_insert.
Qed.

Lemma set_pixels_shape (ops : list (Z * Z * bool)) (a a' : Avatar) :
  set_pixels ops a = Some a' ->
  Width a' = Width a /\ Height a' = Height a
  /\ length (Pixels a') = length (Pixels a).
Proof.
  revert a. induction ops as [|[[x y] v] ops IH]; intros a; cbn [set_pixels].
  - by intros [= <-].
  - destruct (SetPixel a x y v) as [a1|] eqn:Hs; [|done].
    intros Hrest. apply SetPixel_shape in Hs as (Hw & Hh & Hl).
    apply IH in Hrest as (Hw' & Hh' & Hl'). split_and!; congruence.
Qed.

Lemma out_of_bounds_true (a : Avatar) (x y : Z) :
  x < 0 \/ Width a <= x \/ y < 0 \/ Height a <= y ->
  out_of_bounds a x y = true.
Proof. unfold out_of_bounds. lia. Qed.

(** C2. Outside [0,width) x [0,height) a read returns [false], whatever
    [SetPixel] calls came before it, and a write returns the avatar it
    was given: same dimensions and the same buffer, byte for byte. *)
Theorem C2_out_of_bounds_accessors (a : Avatar) (x y : Z) :
  x < 0 \/ Width a <= x \/ y < 0 \/ Height a <= y ->
  (forall ops a', set_pixels ops a = Some a' -> GetPixel a' x y = Some false)
  /\ (forall v, SetPixel a x y v = Some a)
  /\ (forall v a', SetPixel a x y v = Some a' -> Pixels a' = Pixels a).
Proof.
  intros Hout. split_and!.
  - intros ops a' Hops. apply set_pixels_shape in Hops as (Hw & Hh & _).
    unfold GetPixel. rewrite out_of_bounds_true; [done|].
    rewrite Hw, Hh. done.
  - intros v. unfold SetPixel. by rewrite out_of_bounds_true.
  - intros v a'. unfold SetPixel. rewrite out_of_bounds_true by done.
    by intros [= <-].
Qed.

Lemma C2_out_of_bounds_accessors_witness :
  GetPixel {| Width := 2; Height := 2; Pixels := [15] |} 2 0 = Some false
  /\ SetPixel {| Width := 2; Height := 2; Pixels := [15] |} 2 0 false
     = Some {| Width := 2; Height := 2; Pixels := [15] |}.
Proof.
  destruct (C2_out_of_bounds_accessors
              {| Width := 2; Height := 2; Pixels := [15] |} 2 0)
    as (Hget & Hset & _).
  - right; left; cbn; lia.
  - split; [apply (Hget []); reflexivity|apply Hset].
Defined.

(** C3. On a buffer of [ceil(width*height/8)] bytes, a write at an
    in-bounds pixel succeeds and a read of that pixel then returns the
    value written. *)
Theorem C3_set_then_get (a : Avatar) (x y : Z) (v : bool) :
  packed a -> allocated a -> in_bounds a x y ->
  exists a', SetPixel a x y v = Some a' /\ GetPixel a' x y = Some v.
Proof.
  intros Hp Ha Hin.
  destruct (SetPixel_in_bounds a Hp Ha x y Hin v)
    as (a' & Hset & Hw & Hh & Hlen & _ & Hbits).
  exists a'. split; [done|].
  assert (packed a') as Hp' by (red; unfold len; rewrite Hw, Hh, Hlen; done).
  assert (allocated a') as Ha' by (red; unfold len; rewrite Hlen; done).
  assert (in_bounds a' x y) as Hin' by (red; rewrite Hw, Hh; done).
  rewrite (GetPixel_in_bounds a' Hp' Ha' x y Hin'), Hw.
  pose proof (idx_range a x y Hin).
  rewrite Hbits by lia. by rewrite decide_True.
Qed.

Lemma C3_set_then_get_witness :
  exists a', SetPixel {| Width := 3; Height := 3; Pixels := [0; 0] |} 1 2 true
             = Some a'
             /\ GetPixel a' 1 2 = Some true.
Proof.
  apply (C3_set_then_get {| Width := 3; Height := 3; Pixels := [0; 0] |}).
  - reflexivity.
  - unfold allocated, len, maxAlloc; cbn; lia.
  - unfold in_bounds; cbn; lia.
Defined.

(** C9. On a buffer of [ceil(width*height/8)] bytes, a write at an
    in-bounds pixel succeeds and changes at most bit [y*width+x] of the
    buffer: dimensions, length, every other byte and every other bit are
    as before. *)
Theorem C9_set_frame (a : Avatar) (x y : Z) (v : bool) :
  packed a -> allocated a -> in_bounds a x y ->
  exists a',
    SetPixel a x y v = Some a'
    /\ Width a' = Width a /\ Height a' = Height a
    /\ length (Pixels a') = length (Pixels a)
    /\ (forall k : nat, k <> Z.to_nat ((y * Width a + x) / 8) ->
          Pixels a' !! k = Pixels a !! k)
    /\ (forall j, 0 <= j -> j <> y * Width a + x ->
          buffer_bit (Pixels a') j = buffer_bit (Pixels a) j).
Proof.
  intros Hp Ha Hin.
  destruct (SetPixel_in_bounds a Hp Ha x y Hin v)
    as (a' & Hset & Hw & Hh & Hlen & Hbytes & Hbits).
  exists a'. split_and!; try done.
  intros j Hj Hne. rewrite Hbits by done. by rewrite decide_False.
Qed.

Lemma C9_set_frame_witness :
  exists a',
    SetPixel {| Width := 3; Height := 3; Pixels := [255; 1] |} 1 2 false
    = Some a'
    /\ buffer_bit (Pixels a') 8 = true /\ buffer_bit (Pixels a') 6 = true.
Proof.
  destruct (C9_set_frame {| Width := 3; Height := 3; Pixels := [255; 1] |}
              1 2 false)
    as (a' & Hset & _ & _ & _ & _ & Hbits).
  - reflexivity.
  - unfold allocated, len, maxAlloc; cbn; lia.
  - unfold in_bounds; cbn; lia.
  - exists a'. split; [exact Hset|].
    split; (rewrite Hbits; [reflexivity|lia|cbn; lia]).
Defined.

(** C10. On a buffer of [ceil(width*height/8)] bytes, no read or write
    indexes the buffer out of range, for any arguments: past the bounds
    check the pixel index is [y*width+x], it lies in [0, width*height),
    its byte index lies inside the buffer, and so neither accessor
    panics. (Non-negative dimensions are not even needed: with a
    negative one the bounds check lets nothing through.) *)
Theorem C10_no_out_of_range_access (a : Avatar) (x y : Z) (v : bool) :
  packed a -> allocated a ->
  (out_of_bounds a x y = false ->
     pixel_idx a x y = y * Width a + x
     /\ 0 <= pixel_idx a x y < Width a * Height a
     /\ 0 <= byte_idx (pixel_idx a x y) < len (Pixels a)
     /\ is_Some (index (Pixels a) (byte_idx (pixel_idx a x y))))
  /\ is_Some (GetPixel a x y)
  /\ is_Some (SetPixel a x y v).
Proof.
  intros Hp Ha.
  destruct (out_of_bounds a x y) eqn:Hout.
  - split; [done|]. unfold GetPixel, SetPixel. rewrite Hout. by split.
  - assert (in_bounds a x y) as Hin
      by (unfold out_of_bounds in Hout; red; lia).
    split_and!.
    + intros _. refine (conj _ (conj _ (conj _ _))).
      * by apply pixel_idx_exact.
      * rewrite pixel_idx_exact by done. by apply idx_range.
      * rewrite byte_idx_exact by done. by apply byte_idx_in_buffer.
      * destruct (index_in_buffer a Hp Ha x y Hin) as (b & _ & ->). by eexists.
    + rewrite GetPixel_in_bounds by done. by eexists.
    + destruct (SetPixel_in_bounds a Hp Ha x y Hin v) as (a' & -> & _).
      by eexists.
Qed.

Lemma C10_no_out_of_range_access_witness :
  is_Some (GetPixel {| Width := 3; Height := 3; Pixels := [255; 1] |} 2 2)
  /\ is_Some (SetPixel {| Width := 3; Height := 3; Pixels := [255; 1] |}
                2 2 true).
Proof.
  apply (C10_no_out_of_range_access
           {| Width := 3; Height := 3; Pixels := [255; 1] |} 2 2 true).
  - reflexivity.
  - unfold allocated, len, maxAlloc; cbn; lia.
Defined.

(** ** Dimension validation and keyed construction *)

Lemma invalid_dimensions_check (width height : Z) :
  width <= 0 \/ height <= 0 -> (width <=? 0) || (height <=? 0) = true.
Proof. lia. Qed.

Lemma GenerateKeyAvatar_keyed (key : string) (width height : Z)
    (method : string) (e : Entropy) :
  GenerateKeyAvatar key width height method e
  = keyed key (if decide (method = "symmetric")
               then GenerateSymmetric width height e
               else GenerateAvatar width height e).
Proof.
  unfold GenerateKeyAvatar, keyed.
  destruct (String.eqb_spec method "symmetric") as [->|Hne].
  - rewrite decide_True by done.
    by destruct (GenerateSymmetric width height e) as [[[?|] [?|]|] ?].
  - rewrite decide_False by done.
    destruct (String.eqb method "none" || String.eqb method "");
      by destruct (GenerateAvatar width height e) as [[[?|] [?|]|] ?].
Qed.

(** C5. With a non-positive width or height every generation call
    returns the error [invalid dimensions] and a nil result, and reads
    nothing from the entropy source. *)
Theorem C5_invalid_dimensions (key method : string) (width height : Z)
    (e : Entropy) :
  width <= 0 \/ height <= 0 ->
  GenerateAvatar width height e = (Return None (Some InvalidDimensions), e)
  /\ GenerateSymmetric width height e
     = (Return None (Some InvalidDimensions), e)
  /\ GenerateKeyAvatar key width height method e
     = (Return None (Some InvalidDimensions), e).
Proof.
  intros Hdim. apply invalid_dimensions_check in Hdim.
  assert (GenerateAvatar width height e
          = (Return None (Some InvalidDimensions), e)) as Hrandom
    by (unfold GenerateAvatar; by rewrite Hdim).
  assert (GenerateSymmetric width height e
          = (Return None (Some InvalidDimensions), e)) as Hmirror
    by (unfold GenerateSymmetric; by rewrite Hdim).
  split; [done|]. split; [done|].
  rewrite GenerateKeyAvatar_keyed.
  case_decide; [rewrite Hmirror|rewrite Hrandom]; done.
Qed.

Lemma C5_invalid_dimensions_witness :
  GenerateAvatar 0 (-4) (mkEntropy [7] 0)
  = (Return None (Some InvalidDimensions), mkEntropy [7] 0)
  /\ GenerateSymmetric 0 (-4) (mkEntropy [7] 0)
     = (Return None (Some InvalidDimensions), mkEntropy [7] 0)
  /\ GenerateKeyAvatar "user123" 0 (-4) "symmetric" (mkEntropy [7] 0)
     = (Return None (Some InvalidDimensions), mkEntropy [7] 0).
Proof.
  apply (C5_invalid_dimensions "user123" "symmetric" 0 (-4)). left. lia.
Defined.

(** C7. [GenerateKeyAvatar] runs the mirrored fill exactly when the
    method is ["symmetric"] and the random fill for every other method,
    ["none"] and the empty string among them; what the chosen fill
    returns is handed on by [keyed]: its error unchanged and without a
    keyed avatar, its avatar under the key. *)
Theorem C7_method_dispatch (key : string) (width height : Z)
    (method : string) (e : Entropy) :
  GenerateKeyAvatar key width height method e
  = keyed key (if decide (method = "symmetric")
               then GenerateSymmetric width height e
               else GenerateAvatar width height e)
  /\ GenerateKeyAvatar key width height "none" e
     = keyed key (GenerateAvatar width height e)
  /\ GenerateKeyAvatar key width height "" e
     = keyed key (GenerateAvatar width height e)
  /\ (forall err e',
        (if decide (method = "symmetric")
         then GenerateSymmetric width height e
         else GenerateAvatar width height e) = (Return None (Some err), e') ->
        GenerateKeyAvatar key width height method e
        = (Return None (Some err), e')).
Proof.
  split_and!; try apply GenerateKeyAvatar_keyed.
  intros err e' Hfill. by rewrite GenerateKeyAvatar_keyed, Hfill.
Qed.

Lemma C7_method_dispatch_witness :
  GenerateKeyAvatar "user123" 0 2 "symmetric" (mkEntropy [1; 0; 1] 0)
  = (Return None (Some InvalidDimensions), mkEntropy [1; 0; 1] 0).
Proof.
  destruct (C7_method_dispatch "user123" 0 2 "symmetric"
              (mkEntropy [1; 0; 1] 0)) as (_ & _ & _ & Herr).
  apply Herr. vm_compute. reflexivity.
Defined.

(** ** Writes seen through reads *)

Lemma shaped_in_bounds (w h : Z) (a : Avatar) (x y : Z) :
  shaped w h a -> 0 <= x < w -> 0 <= y < h -> in_bounds a x y.
Proof. intros (<- & <- & _). by split. Qed.

Lemma idx_inj (w x y x' y' : Z) :
  0 <= x < w -> 0 <= x' < w ->
  y' * w + x' = y * w + x <-> x' = x /\ y' = y.
Proof.
  intros Hx Hx'. split; [|intros [-> ->]; done]. intros Heq.
  assert (y' = y) as ->; [|lia].
  destruct (Z.lt_trichotomy y' y) as [Hlt|[?|Hgt]]; [|done|].
  - assert ((y' + 1) * w <= y * w) by (apply Z.mul_le_mono_nonneg_r; lia).
    lia.
  - assert ((y + 1) * w <= y' * w) by (apply Z.mul_le_mono_nonneg_r; lia).
    lia.
Qed.

Lemma SetPixel_seen (w h : Z) (a : Avatar) (x y : Z) (v : bool) :
  shaped w h a -> 0 <= x < w -> 0 <= y < h ->
  exists a',
    SetPixel a x y v = Some a' /\ shaped w h a'
    /\ forall x' y', 0 <= x' < w -> 0 <= y' < h ->
          GetPixel a' x' y'
          = if decide (x' = x /\ y' = y) then Some v else GetPixel a x' y'.
Proof.
  intros Hs Hx Hy. pose proof Hs as (Hw & Hh & Hp & Ha).
  pose proof (shaped_in_bounds w h a x y Hs Hx Hy) as Hin.
  destruct (SetPixel_in_bounds a Hp Ha x y Hin v)
    as (a' & Hset & Hw' & Hh' & Hlen & _ & Hbits).
  assert (shaped w h a') as Hs'.
  { red. unfold packed, allocated, len in *.
    rewrite Hw', Hh', Hlen. done. }
  exists a'. split; [done|]. split; [done|].
  intros x' y' Hx' Hy'. pose proof Hs' as (_ & _ & Hp' & Ha').
  pose proof (shaped_in_bounds w h a x' y' Hs Hx' Hy') as Hin1.
  pose proof (shaped_in_bounds w h a' x' y' Hs' Hx' Hy') as Hin2.
  rewrite (GetPixel_in_bounds a' Hp' Ha' x' y' Hin2).
  rewrite (GetPixel_in_bounds a Hp Ha x' y' Hin1).
  pose proof (idx_range a' x' y' Hin2). rewrite Hbits by lia.
  rewrite Hw', Hw. pose proof (idx_inj w x y x' y' Hx Hx').
  repeat case_decide; try done; tauto.
Qed.

(** ** The mirrored fill, loop by loop *)

Lemma half_width_bounds (w x : Z) :
  0 <= x < half_width w -> 0 <= x <= w - 1 - x.
Proof. unfold half_width. intros Hx. Z.div_mod_to_equations. lia. Qed.

Lemma mirror_col_range (w x : Z) :
  0 <= x < w -> 0 <= mirror_col w x < half_width w.
Proof.
  unfold mirror_col, half_width. intros Hx. Z.div_mod_to_equations. lia.
Qed.

Lemma shaped_width_fits (w h : Z) (a : Avatar) :
  shaped w h a -> 0 < w -> 0 < h -> w <= 8 * maxAlloc.
Proof.
  intros (<- & <- & Hp & Ha) Hw Hh. pose proof (bits_fit a Hp Ha). nia.
Qed.

Lemma rand_Read_one (e : Entropy) :
  rand_Read [0] e
  = match pool e with
    | [] => ([0], Some rand_failure,
             {| pool := pool e; reads := S (reads e) |})
    | b0 :: rest => ([b0], None, {| pool := rest; reads := S (reads e) |})
    end.
Proof.
  unfold rand_Read. destruct (pool e) as [|b0 rest]; cbn [length].
  - rewrite decide_False by lia. done.
  - rewrite decide_True by lia. done.
Qed.

Lemma symmetric_body_spec (w h : Z) (a : Avatar) (e : Entropy) (x y : Z) :
  shaped w h a -> 0 <= y < h -> 0 <= x < half_width w ->
  match symmetric_body w x y a e with
  | Stop r e' => pool e = [] /\ r = Return None (Some read_failed)
  | Next a' e' =>
      exists b0,
        pool e = b0 :: pool e' /\ reads e' = S (reads e)
        /\ shaped w h a'
        /\ forall x' y', 0 <= x' < w -> 0 <= y' < h ->
              GetPixel a' x' y'
              = if decide (y' = y /\ mirror_col w x' = x)
                then Some (low_bit b0) else GetPixel a x' y'
  end.
Proof.
  intros Hs Hy Hx. pose proof (half_width_bounds w x Hx) as Hm.
  pose proof (shaped_width_fits w h a Hs ltac:(lia) ltac:(lia)) as Hfit.
  unfold symmetric_body. change (make_bytes 1) with (Some [0]). cbv beta iota.
  rewrite rand_Read_one. destruct (pool e) as [|b0 rest] eqn:Hpool; [done|].
  change (index [b0] 0) with (Some b0). cbv beta iota zeta.
  destruct (SetPixel_seen w h a x y (Z.land b0 1 =? 1) Hs ltac:(lia) Hy)
    as (a1 & -> & Hs1 & Hget1).
  assert (GoInt.sub (GoInt.sub w 1) x = w - 1 - x) as ->.
  { unfold GoInt.sub, maxAlloc in *.
    rewrite (wrap_small (w - 1))
      by (unfold GoInt.min_int, GoInt.max_int; lia).
    apply wrap_small. unfold GoInt.min_int, GoInt.max_int. lia. }
  destruct (Z.eqb_spec (w - 1 - x) x) as [Hcentre|Hside].
  - exists b0. cbn [pool reads]. split_and!; try done.
    intros x' y' Hx' Hy'. rewrite Hget1 by done. unfold mirror_col, low_bit.
    repeat case_decide; try done; lia.
  - destruct (SetPixel_seen w h a1 (w - 1 - x) y (Z.land b0 1 =? 1)
                Hs1 ltac:(lia) Hy) as (a2 & -> & Hs2 & Hget2).
    exists b0. cbn [pool reads]. split_and!; try done.
    intros x' y' Hx' Hy'. rewrite Hget2, Hget1 by done.
    unfold mirror_col, low_bit.
    repeat case_decide; try done; lia.
Qed.

Lemma symmetric_row_spec (w h y : Z) (n : nat) :
  0 <= y < h ->
  forall (x : Z) (a : Avatar) (e : Entropy),
    shaped w h a -> 0 <= x -> x + Z.of_nat n <= half_width w ->
    match symmetric_row n w x y a e with
    | Stop r e' =>
        (length (pool e) < n)%nat /\ r = Return None (Some read_failed)
    | Next a' e' =>
        (n <= length (pool e))%nat
        /\ pool e' = drop n (pool e) /\ reads e' = (reads e + n)%nat
        /\ shaped w h a'
        /\ forall x' y', 0 <= x' < w -> 0 <= y' < h ->
             GetPixel a' x' y'
             = if decide (y' = y /\ x <= mirror_col w x' < x + Z.of_nat n)
               then Some (low_bit
                            (pool e !!! Z.to_nat (mirror_col w x' - x)))
               else GetPixel a x' y'
    end.
Proof.
  intros Hy. induction n as [|n IH]; intros x a e Hs Hx Hn.
  - cbn [symmetric_row]. split_and!; try done; [lia|].
    intros x' y' _ _. rewrite decide_False by lia. done.
  - cbn [symmetric_row].
    pose proof (symmetric_body_spec w h a e x y Hs Hy ltac:(lia)) as Hbody.
    destruct (symmetric_body w x y a e) as [a1 e1|r e1].
    + destruct Hbody as (b0 & Hpool & Hreads & Hs1 & Hget1).
      pose proof (half_width_bounds w x ltac:(lia)) as Hm.
      pose proof (shaped_width_fits w h a Hs ltac:(lia) ltac:(lia)) as Hfit.
      assert (GoInt.add x 1 = x + 1) as ->.
      { apply wrap_small.
        unfold GoInt.min_int, GoInt.max_int, maxAlloc in *. lia. }
      specialize (IH (x + 1) a1 e1 Hs1 ltac:(lia) ltac:(lia)).
      destruct (symmetric_row n w (x + 1) y a1 e1) as [a' e'|r e'].
      * destruct IH as (Hlen & Hdrop & Hcount & Hs' & Hget').
        rewrite Hpool. cbn [length drop].
        split_and!; try done; [lia|lia|].
        intros x' y' Hx' Hy'. rewrite Hget', Hget1 by done.
        repeat case_decide; try done; try lia.
        -- replace (Z.to_nat (mirror_col w x' - x))
             with (S (Z.to_nat (mirror_col w x' - (x + 1)))) by lia.
           done.
        -- replace (mirror_col w x' - x) with 0 by lia. done.
      * destruct IH as [Hlen ->]. rewrite Hpool. cbn [length].
        split; [lia|done].
    + destruct Hbody as [-> ->]. cbn [length]. split; [lia|done].
Qed.

Lemma symmetric_rows_spec (w h : Z) (m : nat) :
  0 < w ->
  forall (y : Z) (a : Avatar) (e : Entropy),
    shaped w h a -> 0 <= y -> y + Z.of_nat m <= h ->
    let hw := Z.to_nat (half_width w) in
    match symmetric_rows m w (half_width w) y a e with
    | Stop r e' =>
        (length (pool e) < m * hw)%nat /\ r = Return None (Some read_failed)
    | Next a' e' =>
        (m * hw <= length (pool e))%nat
        /\ pool e' = drop (m * hw) (pool e)
        /\ reads e' = (reads e + m * hw)%nat
        /\ shaped w h a'
        /\ forall x' y', 0 <= x' < w -> 0 <= y' < h ->
             GetPixel a' x' y'
             = if decide (y <= y' < y + Z.of_nat m)
               then Some (low_bit
                            (pool e !!! Z.to_nat ((y' - y) * half_width w
                                                  + mirror_col w x')))
               else GetPixel a x' y'
    end.
Proof.
  intros Hw. induction m as [|m IH]; intros y a e Hs Hy Hm hw.
  - cbn [symmetric_rows]. split_and!; try done; [cbn; lia|].
    intros x' y' _ _. rewrite decide_False by lia. done.
  - cbn [symmetric_rows].
    assert (0 < half_width w) as Hhw
      by (unfold half_width; Z.div_mod_to_equations; lia).
    pose proof (symmetric_row_spec w h y hw ltac:(lia) 0 a e Hs
                  ltac:(lia) ltac:(subst hw; lia)) as Hrow.
    fold hw. destruct (symmetric_row hw w 0 y a e) as [a1 e1|r e1].
    + destruct Hrow as (Hlen1 & Hdrop1 & Hcount1 & Hs1 & Hget1).
      pose proof (shaped_width_fits w h a Hs ltac:(lia) ltac:(lia)) as Hfit.
      assert (h <= 8 * maxAlloc) as Hfit'.
      { destruct Hs as (<- & <- & Hp & Ha). pose proof (bits_fit a Hp Ha).
        nia. }
      assert (GoInt.add y 1 = y + 1) as ->.
      { apply wrap_small.
        unfold GoInt.min_int, GoInt.max_int, maxAlloc in *. lia. }
      specialize (IH (y + 1) a1 e1 Hs1 ltac:(lia) ltac:(lia)). cbv zeta in IH.
      fold hw in IH.
      destruct (symmetric_rows m w (half_width w) (y + 1) a1 e1)
        as [a' e'|r e'].
      * destruct IH as (Hlen & Hdrop & Hcount & Hs' & Hget').
        rewrite Hdrop1, length_drop in Hlen.
        rewrite Hdrop1, drop_drop in Hdrop.
        split_and!; try done; [lia|lia|].
        intros x' y' Hx' Hy'. rewrite Hget', Hget1 by done.
        pose proof (mirror_col_range w x' Hx') as Hcol.
        repeat case_decide; try done; try lia.
        -- rewrite Hdrop1, lookup_total_drop. do 3 f_equal.
           assert (0 <= (y' - (y + 1)) * half_width w)
             by (apply Z.mul_nonneg_nonneg; lia).
           subst hw. rewrite <- Z2Nat.inj_add by lia. f_equal. ring.
        -- replace y' with y by lia. do 3 f_equal. lia.
      * destruct IH as [Hlen ->].
        rewrite Hdrop1, length_drop in Hlen. split; [lia|done].
    + destruct Hrow as [Hlen ->]. split; [lia|done].
Qed.

(** ** The generators when the size computation does not overflow *)

Lemma bytesLen_exact (w h : Z) :
  0 < w -> 0 < h -> no_overflow w h ->
  GoInt.quot (GoInt.add (GoInt.mul w h) 7) 8 = ceil8 (w * h).
Proof.
  unfold no_overflow, GoInt.max_int. intros Hw Hh Hfit.
  assert (0 < w * h) by nia.
  unfold GoInt.quot, GoInt.add, GoInt.mul.
  rewrite (wrap_small (w * h))
    by (unfold GoInt.min_int, GoInt.max_int; lia).
  rewrite (wrap_small (w * h + 7))
    by (unfold GoInt.min_int, GoInt.max_int; lia).
  rewrite Z.quot_div_nonneg by lia. unfold ceil8.
  apply wrap_small. unfold GoInt.min_int, GoInt.max_int.
  Z.div_mod_to_equations. lia.
Qed.

Lemma halfWidth_exact (w h : Z) :
  0 < w -> 0 < h -> no_overflow w h ->
  GoInt.quot (GoInt.add w 1) 2 = half_width w.
Proof.
  unfold no_overflow, GoInt.max_int. intros Hw Hh Hfit.
  assert (w <= w * h) by nia.
  unfold GoInt.quot, GoInt.add.
  rewrite (wrap_small (w + 1))
    by (unfold GoInt.min_int, GoInt.max_int; lia).
  rewrite Z.quot_div_nonneg by lia. unfold half_width.
  apply wrap_small. unfold GoInt.min_int, GoInt.max_int.
  Z.div_mod_to_equations. lia.
Qed.

Lemma make_bytes_spec (n : Z) :
  0 <= n ->
  make_bytes n = if decide (n <= maxAlloc)
                 then Some (replicate (Z.to_nat n) 0) else None.
Proof.
  intros Hn. unfold make_bytes.
  destruct (Z.ltb_spec n 0); [lia|].
  destruct (Z.ltb_spec maxAlloc n); case_decide; done || lia.
Qed.

Lemma ceil8_nonneg (n : Z) : 0 <= n -> 0 <= ceil8 n.
Proof. unfold ceil8. intros Hn. Z.div_mod_to_equations. lia. Qed.

Lemma shaped_fresh (w h : Z) (s : list Z) :
  length s = Z.to_nat (ceil8 (w * h)) ->
  0 <= w * h -> ceil8 (w * h) <= maxAlloc ->
  shaped w h {| Width := w; Height := h; Pixels := s |}.
Proof.
  intros Hlen Hbits Hfit. pose proof (ceil8_nonneg _ Hbits).
  red. unfold packed, allocated, len. cbn [Width Height Pixels].
  rewrite Hlen. split_and!; try done; lia.
Qed.

Lemma GenerateAvatar_spec (w h : Z) (e : Entropy) :
  0 < w -> 0 < h -> no_overflow w h ->
  let n := Z.to_nat (ceil8 (w * h)) in
  match GenerateAvatar w h e with
  | (Panic, e') => maxAlloc < ceil8 (w * h) /\ e' = e
  | (Return (Some a) None, e') =>
      (n <= length (pool e))%nat
      /\ a = {| Width := w; Height := h; Pixels := take n (pool e) |}
      /\ shaped w h a
      /\ e' = {| pool := drop n (pool e); reads := S (reads e) |}
  | (Return None (Some err), e') =>
      (length (pool e) < n)%nat /\ err = generation_failed
      /\ reads e' = S (reads e)
  | _ => False
  end.
Proof.
  intros Hw Hh Hfit n. unfold GenerateAvatar.
  destruct (Z.leb_spec w 0); [lia|]. destruct (Z.leb_spec h 0); [lia|].
  cbn [orb]. cbv zeta. rewrite bytesLen_exact by done.
  assert (0 <= w * h) as Hbits by nia.
  rewrite make_bytes_spec by (by apply ceil8_nonneg).
  case_decide as Hmax; [|split; [lia|done]].
  unfold rand_Read. rewrite length_replicate. fold n.
  case_decide as Hpool.
  - split_and!; try done.
    apply shaped_fresh; try done. rewrite length_take. lia.
  - split_and!; try done. lia.
Qed.

Lemma GenerateSymmetric_spec (w h : Z) (e : Entropy) :
  0 < w -> 0 < h -> no_overflow w h ->
  let n := (Z.to_nat h * Z.to_nat (half_width w))%nat in
  match GenerateSymmetric w h e with
  | (Panic, e') => maxAlloc < ceil8 (w * h) /\ e' = e
  | (Return (Some a) None, e') =>
      (n <= length (pool e))%nat
      /\ shaped w h a
      /\ pool e' = drop n (pool e) /\ reads e' = (reads e + n)%nat
      /\ forall x y, 0 <= x < w -> 0 <= y < h ->
           GetPixel a x y
           = Some (low_bit (pool e !!! Z.to_nat (y * half_width w
                                                 + mirror_col w x)))
  | (Return None (Some err), e') =>
      (length (pool e) < n)%nat /\ err = read_failed
  | _ => False
  end.
Proof.
  intros Hw Hh Hfit n. unfold GenerateSymmetric.
  destruct (Z.leb_spec w 0); [lia|]. destruct (Z.leb_spec h 0); [lia|].
  cbn [orb]. cbv zeta.
  rewrite bytesLen_exact, (halfWidth_exact w h) by done.
  assert (0 <= w * h) as Hbits by nia.
  rewrite make_bytes_spec by (by apply ceil8_nonneg).
  case_decide as Hmax; [|split; [lia|done]].
  pose proof (symmetric_rows_spec w h (Z.to_nat h) Hw 0
                {| Width := w; Height := h;
                   Pixels := replicate (Z.to_nat (ceil8 (w * h))) 0 |} e
                ltac:(apply shaped_fresh;
                      [apply length_replicate|done|done])
                ltac:(lia) ltac:(lia)) as Hrows.
  cbv zeta in Hrows. fold n in Hrows.
  destruct (symmetric_rows _ _ _ _ _ _) as [a' e'|r e'].
  - destruct Hrows as (Hlen & Hdrop & Hcount & Hs & Hget).
    split_and!; try done.
    intros x y Hx Hy. rewrite Hget by done.
    rewrite decide_True by lia. do 4 f_equal. lia.
  - destruct Hrows as [Hlen ->]. done.
Qed.

(** Both fills do succeed when the buffer can be allocated and the
    source holds the bytes they ask for. *)
Lemma GenerateAvatar_succeeds (w h : Z) (e : Entropy) :
  0 < w -> 0 < h -> no_overflow w h ->
  ceil8 (w * h) <= maxAlloc -> ceil8 (w * h) <= len (pool e) ->
  exists a e', GenerateAvatar w h e = (Return (Some a) None, e').
Proof.
  intros Hw Hh Hfit Hmax Hpool.
  pose proof (GenerateAvatar_spec w h e Hw Hh Hfit) as Hspec.
  cbv zeta in Hspec. unfold len in Hpool.
  destruct (GenerateAvatar w h e) as [[[a|] [err|]|] e'];
    try done; [by eexists _, _|destruct Hspec; lia|destruct Hspec; lia].
Qed.

Lemma GenerateSymmetric_succeeds (w h : Z) (e : Entropy) :
  0 < w -> 0 < h -> no_overflow w h ->
  ceil8 (w * h) <= maxAlloc -> h * half_width w <= len (pool e) ->
  exists a e', GenerateSymmetric w h e = (Return (Some a) None, e').
Proof.
  intros Hw Hh Hfit Hmax Hpool.
  pose proof (GenerateSymmetric_spec w h e Hw Hh Hfit) as Hspec.
  cbv zeta in Hspec. unfold len in Hpool.
  assert (0 < half_width w)
    by (unfold half_width; Z.div_mod_to_equations; lia).
  assert ((Z.to_nat h * Z.to_nat (half_width w))%nat
          = Z.to_nat (h * half_width w)) as Hn
    by (rewrite Z2Nat.inj_mul by lia; done).
  rewrite Hn in Hspec.
  destruct (GenerateSymmetric w h e) as [[[a|] [err|]|] e'];
    try done; [by eexists _, _|destruct Hspec; lia|destruct Hspec; lia].
Qed.

Lemma SetPixel_total (w h : Z) (a : Avatar) (x y : Z) (v : bool) :
  shaped w h a -> exists a', SetPixel a x y v = Some a' /\ shaped w h a'.
Proof.
  intros Hs. destruct (out_of_bounds a x y) eqn:Hout.
  - exists a. unfold SetPixel. by rewrite Hout.
  - pose proof Hs as (Hw & Hh & _).
    unfold out_of_bounds in Hout. rewrite Hw, Hh in Hout.
    destruct (SetPixel_seen w h a x y v Hs ltac:(lia) ltac:(lia))
      as (a' & Hset & Hs' & _).
    by exists a'.
Qed.

Lemma set_pixels_total (w h : Z) (ops : list (Z * Z * bool)) (a : Avatar) :
  shaped w h a -> exists a', set_pixels ops a = Some a' /\ shaped w h a'.
Proof.
  revert a. induction ops as [|[[x y] v] ops IH]; intros a Hs.
  - by exists a.
  - cbn [set_pixels].
    destruct (SetPixel_total w h a x y v Hs) as (a1 & -> & Hs1).
    by apply IH.
Qed.

Lemma GetPixel_total (w h : Z) (a : Avatar) (x y : Z) :
  shaped w h a -> is_Some (GetPixel a x y).
Proof.
  intros (Hw & Hh & Hp & Ha). destruct (out_of_bounds a x y) eqn:Hout.
  - unfold GetPixel. by rewrite Hout.
  - rewrite GetPixel_in_bounds; [by eexists|done|done|].
    unfold out_of_bounds in Hout. red. lia.
Qed.

(** ** The generated grids *)

(** C1, the defect. The mirrored fill breaks the mirror property where
    its size computation overflows: for width [2^63 - 1] and height 2
    the product wraps to -2, the buffer gets [(-2 + 7) / 8 = 0] bytes,
    [halfWidth] wraps to a negative value and no pixel is written. The
    call succeeds all the same, and on the grid it returns the read at
    (0,0), which the property sets equal to the read at (width-1,0),
    indexes an empty buffer and panics: a grid that is said to have its
    left half set at random and mirrored cannot be read at all. *)
Lemma C1_mirror_counterexample :
  GenerateSymmetric 9223372036854775807 2 (mkEntropy [1; 0; 1] 0)
  = (Return (Some {| Width := 9223372036854775807; Height := 2;
                     Pixels := [] |}) None,
     mkEntropy [1; 0; 1] 0)
  /\ GetPixel {| Width := 9223372036854775807; Height := 2; Pixels := [] |}
       0 0 = None.
Proof. split; vm_compute; reflexivity. Qed.

(** C1 where nothing overflows. When [width*height + 7] does not
    overflow, every grid a successful mirrored fill returns has the
    requested dimensions and each of its rows is a palindrome: the
    reads at [(x,y)] and at [(width-1-x,y)] both return, and return the
    same value. *)
Theorem C1_mirror (w h : Z) (e e' : Entropy) (a : Avatar) :
  0 < w -> 0 < h -> no_overflow w h ->
  GenerateSymmetric w h e = (Return (Some a) None, e') ->
  Width a = w /\ Height a = h
  /\ forall x y, 0 <= x < w -> 0 <= y < h ->
       exists b, GetPixel a x y = Some b
                 /\ GetPixel a (w - 1 - x) y = Some b.
Proof.
  intros Hw Hh Hfit Hgen.
  pose proof (GenerateSymmetric_spec w h e Hw Hh Hfit) as Hspec.
  rewrite Hgen in Hspec. destruct Hspec as (_ & Hs & _ & _ & Hget).
  destruct Hs as (Hwa & Hha & _). split; [done|]. split; [done|].
  intros x y Hx Hy. eexists. split; [by apply Hget|].
  rewrite Hget by lia. unfold mirror_col. do 5 f_equal. lia.
Qed.

Lemma C1_mirror_witness :
  Width {| Width := 3; Height := 2; Pixels := [61] |} = 3
  /\ exists b, GetPixel {| Width := 3; Height := 2; Pixels := [61] |} 0 1
               = Some b
               /\ GetPixel {| Width := 3; Height := 2; Pixels := [61] |}
                    (3 - 1 - 0) 1 = Some b.
Proof.
  destruct (C1_mirror 3 2 (mkEntropy [1; 0; 1; 1] 0) (mkEntropy [] 4)
              {| Width := 3; Height := 2; Pixels := [61] |})
    as (Hw & _ & Hrows).
  - lia.
  - lia.
  - unfold no_overflow, GoInt.max_int. lia.
  - vm_compute. reflexivity.
  - split; [exact Hw|]. apply Hrows; lia.
Defined.

(** C4, the defect. The random fill breaks the length invariant where
    its size computation overflows: for width and height [2^32] the
    product wraps to 0, so [(bits + 7) / 8], written to be
    [ceil(width*height/8)], is 0 and the fill succeeds with an empty
    buffer, while [ceil(width*height/8)] is [2^61]: not one bit per
    pixel. *)
Lemma C4_buffer_length_counterexample :
  GenerateAvatar 4294967296 4294967296 (mkEntropy [] 0)
  = (Return (Some {| Width := 4294967296; Height := 4294967296;
                     Pixels := [] |}) None,
     mkEntropy [] 1)
  /\ len [] = 0
  /\ ceil8 (4294967296 * 4294967296) = 2305843009213693952.
Proof. split_and!; vm_compute; reflexivity. Qed.

(** C4 where nothing overflows. When [width*height + 7] does not
    overflow, an avatar returned by either fill has a buffer of exactly
    [ceil(width*height/8)] bytes, and it keeps that length through any
    run of [SetPixel] calls, none of which panics; [GetPixel] only
    reads, and does not panic either. *)
Theorem C4_buffer_length (w h : Z) (e e' : Entropy) (a : Avatar) :
  0 < w -> 0 < h -> no_overflow w h ->
  GenerateAvatar w h e = (Return (Some a) None, e')
  \/ GenerateSymmetric w h e = (Return (Some a) None, e') ->
  len (Pixels a) = ceil8 (w * h)
  /\ forall ops, exists a',
       set_pixels ops a = Some a'
       /\ len (Pixels a') = ceil8 (w * h)
       /\ forall x y, is_Some (GetPixel a' x y).
Proof.
  intros Hw Hh Hfit Hgen.
  assert (shaped w h a) as Hs.
  { destruct Hgen as [Hgen|Hgen].
    - pose proof (GenerateAvatar_spec w h e Hw Hh Hfit) as Hspec.
      rewrite Hgen in Hspec. by destruct Hspec as (_ & _ & Hs & _).
    - pose proof (GenerateSymmetric_spec w h e Hw Hh Hfit) as Hspec.
      rewrite Hgen in Hspec. by destruct Hspec as (_ & Hs & _). }
  split.
  - destruct Hs as (<- & <- & Hp & _). exact Hp.
  - intros ops. destruct (set_pixels_total w h ops a Hs) as (a' & Hops & Hs').
    exists a'. split; [done|]. split.
    + destruct Hs' as (<- & <- & Hp & _). exact Hp.
    + intros x y. by apply (GetPixel_total w h).
Qed.

Lemma C4_buffer_length_witness :
  len (Pixels {| Width := 3; Height := 3; Pixels := [170; 85] |})
  = ceil8 (3 * 3).
Proof.
  apply (C4_buffer_length 3 3 (mkEntropy [170; 85; 7] 0) (mkEntropy [7] 1)).
  - lia.
  - lia.
  - unfold no_overflow, GoInt.max_int. lia.
  - left. vm_compute. reflexivity.
Defined.

(** C6, the defect. The mirrored fill breaks the count of reads where
    its size computation overflows: for width [2^63 - 1] and height 2,
    [(width + 1) / 2], written to be [ceil(width/2)], wraps to a
    negative value, and the fill succeeds without a single read of the
    entropy source, while [height * ceil(width/2)] is [2^63]. *)
Lemma C6_reads_counterexample :
  GenerateSymmetric 9223372036854775807 2 (mkEntropy [1; 0; 1] 0)
  = (Return (Some {| Width := 9223372036854775807; Height := 2;
                     Pixels := [] |}) None,
     mkEntropy [1; 0; 1] 0)
  /\ 2 * half_width 9223372036854775807 = 9223372036854775808.
Proof. split; vm_compute; reflexivity. Qed.

(** C6 where nothing overflows. When [width*height + 7] does not
    overflow, a successful mirrored fill makes exactly [height * ceil(width/2)]
    reads of the entropy source, of one byte each, and pixel [(x,y)] of
    the left half is the low bit of read number [y * ceil(width/2) + x]:
    one fresh bit per left-half pixel. For an odd width the centre
    column [(width-1)/2] is its own mirror and holds the one bit read
    for it. *)
Theorem C6_reads (w h : Z) (e e' : Entropy) (a : Avatar) :
  0 < w -> 0 < h -> no_overflow w h ->
  GenerateSymmetric w h e = (Return (Some a) None, e') ->
  Z.of_nat (reads e') = Z.of_nat (reads e) + h * half_width w
  /\ pool e' = drop (Z.to_nat (h * half_width w)) (pool e)
  /\ h * half_width w <= len (pool e)
  /\ (forall x y, 0 <= x < half_width w -> 0 <= y < h ->
        GetPixel a x y
        = Some (low_bit (pool e !!! Z.to_nat (y * half_width w + x))))
  /\ (Z.odd w = true ->
      let c := (w - 1) / 2 in
      0 <= c < half_width w /\ w - 1 - c = c
      /\ forall y, 0 <= y < h ->
           GetPixel a c y
           = Some (low_bit (pool e !!! Z.to_nat (y * half_width w + c)))).
Proof.
  intros Hw Hh Hfit Hgen.
  pose proof (GenerateSymmetric_spec w h e Hw Hh Hfit) as Hspec.
  rewrite Hgen in Hspec. cbv zeta in Hspec.
  destruct Hspec as (Hlen & _ & Hdrop & Hcount & Hget).
  assert (0 < half_width w) as Hhw
    by (unfold half_width; Z.div_mod_to_equations; lia).
  assert ((Z.to_nat h * Z.to_nat (half_width w))%nat
          = Z.to_nat (h * half_width w)) as Hn
    by (rewrite Z2Nat.inj_mul by lia; done).
  rewrite Hn in *.
  assert (0 <= h * half_width w) by (apply Z.mul_nonneg_nonneg; lia).
  assert (forall x y, 0 <= x < half_width w -> 0 <= y < h ->
            GetPixel a x y
            = Some (low_bit (pool e !!! Z.to_nat (y * half_width w + x))))
    as Hleft.
  { intros x y Hx Hy. pose proof (half_width_bounds w x Hx).
    rewrite Hget by lia. unfold mirror_col. do 5 f_equal. lia. }
  split; [lia|]. split; [done|]. split; [unfold len; lia|].
  split; [done|].
  intros Hodd c.
  assert (0 <= c < half_width w /\ w - 1 - c = c) as [Hc Hself].
  { rewrite Z.odd_spec in Hodd. destruct Hodd as [k ->].
    subst c. unfold half_width. Z.div_mod_to_equations. lia. }
  split; [done|]. split; [done|]. intros y Hy. by apply Hleft.
Qed.

Lemma C6_reads_witness :
  Z.of_nat (reads (mkEntropy [7] 4))
  = Z.of_nat (reads (mkEntropy [1; 0; 1; 1; 7] 0)) + 2 * half_width 3.
Proof.
  apply (C6_reads 3 2 (mkEntropy [1; 0; 1; 1; 7] 0) (mkEntropy [7] 4)
           {| Width := 3; Height := 2; Pixels := [61] |}).
  - lia.
  - lia.
  - unfold no_overflow, GoInt.max_int. lia.
  - vm_compute. reflexivity.
Defined.

(** ** Paths *)

Lemma append_String (c : ascii) (s1 s2 : string) :
  String c s1 +:+ s2 = String c (s1 +:+ s2).
Proof. done. Qed.

Lemma append_assoc (s1 s2 s3 : string) :
  (s1 +:+ s2) +:+ s3 = s1 +:+ s2 +:+ s3.
Proof.
  induction s1 as [|c s1 IH]; [done|]. rewrite !append_String. by f_equal.
Qed.

Lemma length_append (s1 s2 : string) :
  String.length (s1 +:+ s2) = (String.length s1 + String.length s2)%nat.
Proof.
  induction s1 as [|c s1 IH]; [done|].
  rewrite append_String. cbn [String.length Nat.add]. by f_equal.
Qed.

Lemma has_separator_append (s1 s2 : string) :
  has_separator (s1 +:+ s2) = has_separator s1 || has_separator s2.
Proof.
  induction s1 as [|c s1 IH]; [done|].
  rewrite append_String. cbn [has_separator]. by rewrite IH, orb_assoc.
Qed.

Lemma png_name_plain (key : string) :
  has_separator key = false -> plain_element (key +:+ ".png").
Proof.
  intros Hkey. split.
  - rewrite has_separator_append, Hkey. done.
  - split_and!; intros Heq; apply (f_equal String.length) in Heq;
      rewrite length_append in Heq; cbn in Heq; lia.
Qed.

Module filepath_facts.
Import filepath.

Lemma elements_nonempty (path : string) : elements path <> [].
Proof.
  destruct path as [|c rest]; cbn; [done|].
  destruct (IsPathSeparator c); [done|]. by destruct (elements rest).
Qed.

Lemma elements_sep_free (el : string) :
  has_separator el = false -> elements el = [el].
Proof.
  induction el as [|c rest IH]; cbn; [done|].
  intros [Hc Hrest]%orb_false_elim. by rewrite Hc, IH.
Qed.

Lemma elements_append (s1 s2 : string) :
  elements (s1 +:+ String Separator s2) = elements s1 ++ elements s2.
Proof.
  induction s1 as [|c s1 IH]; [done|].
  rewrite append_String. cbn [elements].
  destruct (IsPathSeparator c); [by rewrite IH|].
  rewrite IH. pose proof (elements_nonempty s1).
  by destruct (elements s1).
Qed.

Lemma strings_Join_cons (el : string) (els : list string) (sep : string) :
  els <> [] ->
  strings_Join (el :: els) sep = el +:+ sep +:+ strings_Join els sep.
Proof. by destruct els. Qed.

Lemma strings_Join_snoc (els : list string) (el sep : string) :
  els <> [] ->
  strings_Join (els ++ [el]) sep = strings_Join els sep +:+ sep +:+ el.
Proof.
  induction els as [|el1 els IH]; [done|]. intros _.
  destruct els as [|el2 els]; [done|].
  change ((el1 :: el2 :: els) ++ [el]) with (el1 :: (el2 :: els) ++ [el]).
  rewrite (strings_Join_cons el1 ((el2 :: els) ++ [el])) by (cbn; done).
  rewrite IH by done. rewrite (strings_Join_cons el1 (el2 :: els)) by done.
  by rewrite !append_assoc.
Qed.

Lemma elements_Join (els : list string) :
  els <> [] -> Forall plain_element els ->
  elements (strings_Join els (String Separator EmptyString)) = els.
Proof.
  induction els as [|el els IH]; [done|]. intros _ Hplain.
  apply Forall_cons in Hplain as [[Hel _] Hels].
  destruct els as [|el2 els]; [by apply elements_sep_free|].
  rewrite (strings_Join_cons el (el2 :: els)) by done.
  rewrite (append_String Separator).
  change (EmptyString +:+ ?s) with s.
  rewrite elements_append, elements_sep_free, IH by done. done.
Qed.

Lemma clean_element_plain (rooted : bool) (out : list string) (el : string) :
  plain_element el -> clean_element rooted out el = el :: out.
Proof.
  intros (_ & H0 & H1 & H2). unfold clean_element.
  apply String.eqb_neq in H0, H1, H2. by rewrite H0, H1, H2.
Qed.

Lemma clean_elements_plain (rooted : bool) (els out : list string) :
  Forall plain_element els ->
  foldl (clean_element rooted) out els = rev els ++ out.
Proof.
  revert out. induction els as [|el els IH]; intros out Hplain; [done|].
  apply Forall_cons in Hplain as [Hel Hels]. cbn [foldl rev].
  rewrite clean_element_plain, IH by done. by rewrite <- app_assoc.
Qed.

Lemma strings_Join_head (els : list string) (sep : string) :
  els <> [] -> Forall plain_element els ->
  exists c rest,
    strings_Join els sep = String c rest /\ IsPathSeparator c = false.
Proof.
  intros Hne Hplain. destruct els as [|el els]; [done|].
  pose proof Hplain as [(Hsep & Hel & _) _]%Forall_cons.
  destruct el as [|c el]; [done|]. cbn in Hsep.
  apply orb_false_elim in Hsep as [Hc _].
  destruct els as [|el2 els]; [by exists c, el|].
  rewrite strings_Join_cons, append_String by done. by eexists _, _.
Qed.

(** A relative path of plain elements is clean already. *)
Lemma Clean_relative (els : list string) :
  els <> [] -> Forall plain_element els ->
  Clean (strings_Join els (String Separator EmptyString))
  = strings_Join els (String Separator EmptyString).
Proof.
  intros Hne Hplain. pose proof (elements_Join els Hne Hplain) as Hels.
  destruct (strings_Join_head els (String Separator EmptyString)
              Hne Hplain) as (c & rest & Hpath & Hc).
  unfold Clean. rewrite Hpath at 1. rewrite Hc, Hels.
  rewrite clean_elements_plain, app_nil_r, rev_involutive by done.
  rewrite Hpath. done.
Qed.

(** So is a rooted one. *)
Lemma Clean_rooted (els : list string) :
  els <> [] -> Forall plain_element els ->
  Clean (String Separator
           (strings_Join els (String Separator EmptyString)))
  = String Separator (strings_Join els (String Separator EmptyString)).
Proof.
  intros Hne Hplain. pose proof (elements_Join els Hne Hplain) as Hels.
  unfold Clean. change (IsPathSeparator Separator) with true.
  cbn [elements]. change (IsPathSeparator Separator) with true.
  cbv beta iota. rewrite Hels. cbn [foldl].
  change (clean_element true [] "") with (@nil string).
  rewrite clean_elements_plain, app_nil_r, rev_involutive by done.
  done.
Qed.

End filepath_facts.

(** C8, as stated, fails: [filepath.Join] cleans the path it builds and
    ignores an empty first element, so the result is not always the
    folder, a separator and the file name. The usage example of the
    README passes the folder [./avatars] and gets [avatars/user123.png];
    with an empty folder there is no separator at all. *)
Lemma C8_path_counterexample :
  GetAvatarPath "./avatars" "user123" = "avatars/user123.png"
  /\ "./avatars" +:+ "/" +:+ "user123" +:+ ".png" = "./avatars/user123.png"
  /\ GetAvatarPath "" "user123" = "user123.png".
Proof. split_and!; vm_compute; reflexivity. Qed.

(** C8, amended. [GetAvatarPath] is a total function of its two
    arguments and returns [filepath.Join(folder, key + ".png")]: the
    cleaned form of [<folder>/<key>.png], or of [<key>.png] alone when
    the folder is empty. The result is exactly [<folder>/<key>.png]
    when the folder is a relative or rooted path of one or more plain
    elements (no empty, [.] or [..] element, no trailing separator) and
    the key holds no separator. *)
Theorem C8_path (folder key : string) :
  GetAvatarPath folder key
  = filepath.Clean (if decide (folder = "") then key +:+ ".png"
                    else folder +:+ "/" +:+ key +:+ ".png")
  /\ forall (rooted : bool) (els : list string),
       els <> [] -> Forall plain_element els ->
       has_separator key = false ->
       folder = (if rooted then "/" else "")
                +:+ filepath.strings_Join els "/" ->
       GetAvatarPath folder key = folder +:+ "/" +:+ key +:+ ".png".
Proof.
  assert (folder <> "" ->
          GetAvatarPath folder key
          = filepath.Clean (folder +:+ "/" +:+ key +:+ ".png")) as Hjoin.
  { intros Hne. unfold GetAvatarPath. cbn [filepath.Join].
    apply String.eqb_neq in Hne. rewrite Hne. done. }
  split.
  - case_decide as Hfolder; [|by apply Hjoin].
    subst folder. unfold GetAvatarPath. cbn [filepath.Join].
    pose proof (png_name_plain key) as Hpng.
    destruct (String.eqb_spec (key +:+ ".png") "") as [Heq|_]; [|done].
    apply (f_equal String.length) in Heq.
    rewrite length_append in Heq. cbn in Heq. lia.
  - intros rooted els Hne Hplain Hkey ->.
    pose proof (png_name_plain key Hkey) as Hpng.
    assert (els ++ [key +:+ ".png"] <> []) as Hne' by (by destruct els).
    assert (Forall plain_element (els ++ [key +:+ ".png"])) as Hplain'
      by (apply Forall_app; split; [done|by apply Forall_singleton]).
    destruct (filepath_facts.strings_Join_head els "/" Hne Hplain)
      as (c & rest & Hhead & _).
    destruct rooted.
    + change ("/" +:+ filepath.strings_Join els "/")
        with (String filepath.Separator (filepath.strings_Join els "/"))
        in *.
      rewrite Hjoin by done. rewrite append_String.
      rewrite <- (filepath_facts.strings_Join_snoc els) by done.
      by apply filepath_facts.Clean_rooted.
    + change ("" +:+ filepath.strings_Join els "/")
        with (filepath.strings_Join els "/") in *.
      rewrite Hjoin by (by rewrite Hhead).
      rewrite <- (filepath_facts.strings_Join_snoc els) by done.
      by apply filepath_facts.Clean_relative.
Qed.

Lemma C8_path_witness :
  GetAvatarPath "/srv/avatars" "user123" = "/srv/avatars/user123.png".
Proof.
  destruct (C8_path "/srv/avatars" "user123") as [_ Hplain].
  apply (Hplain true ["srv"; "avatars"]).
  - discriminate.
  - repeat constructor; discriminate.
  - reflexivity.
  - reflexivity.
Defined.


(** * Further properties *)

(** ** Writes as operations on the buffer *)

Lemma SetPixel_write_bit (a : Avatar) (x y : Z) (v : bool) :
  packed a -> allocated a -> in_bounds a x y ->
  SetPixel a x y v
  = Some {| Width := Width a; Height := Height a;
            Pixels := write_bit (Pixels a) (y * Width a + x) v |}.
Proof.
  intros Hp Ha Hin.
  destruct (index_in_buffer a Hp Ha x y Hin) as (b & Hl & Hi).
  pose proof (idx_range a x y Hin) as Hr.
  unfold SetPixel. rewrite (in_bounds_check a x y Hin). cbv zeta.
  rewrite Hi, (bit_idx_exact a Hp Ha x y Hin), shl8_one
    by (apply Z.mod_pos_bound; lia).
  rewrite (byte_idx_exact a Hp Ha x y Hin). unfold write_bit. cbv zeta.
  by rewrite (list_lookup_total_correct _ _ _ Hl).
Qed.

Lemma write_bit_shape (w h : Z) (a : Avatar) (i : Z) (v : bool) :
  shaped w h a ->
  shaped w h {| Width := Width a; Height := Height a;
                Pixels := write_bit (Pixels a) i v |}.
Proof.
  intros (Hw & Hh & Hp & Ha). red. unfold packed, allocated, len, write_bit.
  cbn [Width Height Pixels]. rewrite length_insert. done.
Qed.

Lemma write_bit_overwrite (s : list Z) (i : Z) (v v' : bool) :
  0 <= i ->
  write_bit (write_bit s i v) i v' = write_bit s i v'.
Proof.
  intros Hi. unfold write_bit. cbv zeta.
  set (k := Z.to_nat (i / 8)). set (r := i mod 8).
  assert (0 <= r) by (subst r; apply Z.mod_pos_bound; lia).
  destruct (decide (k < length s)%nat) as [Hk|Hk].
  - rewrite list_lookup_total_insert_eq by done.
    rewrite list_insert_insert_eq. f_equal.
    apply Z.bits_inj'. intros n Hn. rewrite !testbit_set by done.
    by case_decide.
  - by rewrite !list_insert_ge by (rewrite ?length_insert; lia).
Qed.

Lemma write_bit_commute (s : list Z) (i j : Z) (v v' : bool) :
  0 <= i -> 0 <= j -> i <> j ->
  write_bit (write_bit s i v) j v' = write_bit (write_bit s j v') i v.
Proof.
  intros Hi Hj Hne. unfold write_bit. cbv zeta.
  set (k := Z.to_nat (i / 8)). set (r := i mod 8).
  set (k' := Z.to_nat (j / 8)). set (r' := j mod 8).
  assert (0 <= r < 8) by (subst r; apply Z.mod_pos_bound; lia).
  assert (0 <= r' < 8) by (subst r'; apply Z.mod_pos_bound; lia).
  destruct (decide (k = k')) as [Heq|Hkk].
  - assert (r <> r').
    { subst k k' r r'. intros Hr.
      assert (i / 8 = j / 8) by (Z.div_mod_to_equations; lia).
      Z.div_mod_to_equations. lia. }
    rewrite <- Heq. destruct (decide (k < length s)%nat) as [Hk|Hk].
    + rewrite !list_lookup_total_insert_eq by done.
      rewrite !list_insert_insert_eq. f_equal.
      apply Z.bits_inj'. intros n Hn. rewrite !testbit_set by lia.
      repeat case_decide; done || lia.
    + by rewrite !list_insert_ge by (rewrite ?length_insert; lia).
  - rewrite !list_lookup_total_insert_ne by done.
    by apply list_insert_insert_ne.
Qed.

(** X1. On a buffer of [ceil(width*height/8)] bytes, a write at an
    in-bounds pixel is seen by the reads as a change of that pixel
    alone: every other in-bounds pixel reads as before. *)
Theorem X1_write_leaves_other_pixels (a : Avatar) (x y x' y' : Z) (v : bool) :
  packed a -> allocated a -> in_bounds a x y -> in_bounds a x' y' ->
  (x', y') <> (x, y) ->
  exists a', SetPixel a x y v = Some a'
             /\ GetPixel a' x' y' = GetPixel a x' y'.
Proof.
  intros Hp Ha [Hx Hy] [Hx' Hy'] Hne.
  assert (shaped (Width a) (Height a) a) as Hs by done.
  destruct (SetPixel_seen _ _ a x y v Hs Hx Hy) as (a' & Hset & _ & Hget).
  exists a'. split; [done|]. rewrite Hget by done.
  rewrite decide_False; [done|]. intros [-> ->]. done.
Qed.

Lemma X1_write_leaves_other_pixels_witness :
  exists a', SetPixel {| Width := 3; Height := 3; Pixels := [255; 1] |}
               1 2 false = Some a'
             /\ GetPixel a' 2 2
                = GetPixel {| Width := 3; Height := 3; Pixels := [255; 1] |}
                    2 2.
Proof.
  apply (X1_write_leaves_other_pixels
           {| Width := 3; Height := 3; Pixels := [255; 1] |} 1 2 2 2 false).
  - reflexivity.
  - unfold allocated, len, maxAlloc; cbn; lia.
  - unfold in_bounds; cbn; lia.
  - unfold in_bounds; cbn; lia.
  - discriminate.
Defined.

(** X2. The last write wins: on a buffer of [ceil(width*height/8)]
    bytes, writing [v] and then [v'] at an in-bounds pixel leaves the
    avatar that writing [v'] alone leaves; in particular writing the
    same value twice is writing it once. *)
Theorem X2_last_write_wins (a : Avatar) (x y : Z) (v v' : bool) :
  packed a -> allocated a -> in_bounds a x y ->
  exists a1 a2,
    SetPixel a x y v = Some a1
    /\ SetPixel a1 x y v' = Some a2
    /\ SetPixel a x y v' = Some a2.
Proof.
  intros Hp Ha Hin. pose proof (idx_range a x y Hin) as Hr.
  assert (shaped (Width a) (Height a) a) as Hs by done.
  pose proof (write_bit_shape _ _ a (y * Width a + x) v Hs)
    as (_ & _ & Hp1 & Ha1).
  eexists _, _. split; [by apply SetPixel_write_bit|].
  rewrite !SetPixel_write_bit by done. cbn [Width Height Pixels].
  split; [done|]. by rewrite write_bit_overwrite by lia.
Qed.

Lemma X2_last_write_wins_witness :
  exists a1 a2,
    SetPixel {| Width := 3; Height := 3; Pixels := [255; 1] |} 1 2 false
    = Some a1
    /\ SetPixel a1 1 2 true = Some a2
    /\ SetPixel {| Width := 3; Height := 3; Pixels := [255; 1] |} 1 2 true
       = Some a2.
Proof.
  apply (X2_last_write_wins
           {| Width := 3; Height := 3; Pixels := [255; 1] |} 1 2 false true).
  - reflexivity.
  - unfold allocated, len, maxAlloc; cbn; lia.
  - unfold in_bounds; cbn; lia.
Defined.

(** X3. Writes at two different in-bounds pixels commute: on a buffer
    of [ceil(width*height/8)] bytes both orders succeed and leave the
    same avatar, also when the two pixels share a byte. *)
Theorem X3_writes_commute (a : Avatar) (x1 y1 x2 y2 : Z) (v1 v2 : bool) :
  packed a -> allocated a -> in_bounds a x1 y1 -> in_bounds a x2 y2 ->
  (x1, y1) <> (x2, y2) ->
  exists a1 a2 a12,
    SetPixel a x1 y1 v1 = Some a1 /\ SetPixel a1 x2 y2 v2 = Some a12
    /\ SetPixel a x2 y2 v2 = Some a2 /\ SetPixel a2 x1 y1 v1 = Some a12.
Proof.
  intros Hp Ha Hin1 Hin2 Hne.
  pose proof (idx_range a x1 y1 Hin1) as Hr1.
  pose proof (idx_range a x2 y2 Hin2) as Hr2.
  assert (shaped (Width a) (Height a) a) as Hs by done.
  pose proof (write_bit_shape _ _ a (y1 * Width a + x1) v1 Hs)
    as (_ & _ & Hp1 & Ha1).
  pose proof (write_bit_shape _ _ a (y2 * Width a + x2) v2 Hs)
    as (_ & _ & Hp2 & Ha2).
  assert (y1 * Width a + x1 <> y2 * Width a + x2) as Hidx.
  { destruct Hin1 as [Hx1 _], Hin2 as [Hx2 _].
    intros Heq. apply (idx_inj (Width a) x2 y2 x1 y1 Hx2 Hx1) in Heq.
    destruct Heq as [-> ->]. done. }
  eexists _, _, _.
  split; [by apply SetPixel_write_bit|].
  split; [by apply SetPixel_write_bit|].
  split; [by apply SetPixel_write_bit|].
  rewrite SetPixel_write_bit by done. cbn [Width Height Pixels].
  by rewrite write_bit_commute by lia.
Qed.

Lemma X3_writes_commute_witness :
  exists a1 a2 a12,
    SetPixel {| Width := 3; Height := 3; Pixels := [255; 1] |} 0 0 false
    = Some a1
    /\ SetPixel a1 1 0 false = Some a12
    /\ SetPixel {| Width := 3; Height := 3; Pixels := [255; 1] |} 1 0 false
       = Some a2
    /\ SetPixel a2 0 0 false = Some a12.
Proof.
  apply (X3_writes_commute
           {| Width := 3; Height := 3; Pixels := [255; 1] |}
           0 0 1 0 false false).
  - reflexivity.
  - unfold allocated, len, maxAlloc; cbn; lia.
  - unfold in_bounds; cbn; lia.
  - unfold in_bounds; cbn; lia.
  - discriminate.
Defined.

(** ** Writes and the bytes of the buffer *)

Lemma shl8_one_cases (k : Z) :
  0 <= k -> GoInt.shl8 1 k = 0 \/ (0 <= k < 8 /\ GoInt.shl8 1 k = 2 ^ k).
Proof.
  intros Hk. destruct (Z.lt_ge_cases k 8) as [Hlt|Hge].
  - right. split; [lia|]. apply shl8_one. lia.
  - left. unfold GoInt.shl8. destruct (Z.ltb_spec k 8); [lia|done].
Qed.

Lemma bit_idx_nonneg (idx : Z) : 0 <= bit_idx idx.
Proof. unfold bit_idx, GoInt.to_uint. apply Z.mod_pos_bound. lia. Qed.

Lemma mask_write_back (b m : Z) :
  m = 0 \/ (exists r, 0 <= r /\ m = 2 ^ r) ->
  (if negb (Z.land b m =? 0) then Z.lor b m else Z.ldiff b m) = b.
Proof.
  intros [->|(r & Hr & ->)].
  - rewrite Z.land_0_r. cbn. apply Z.ldiff_0_r.
  - rewrite land_pow2_testbit by done.
    apply Z.bits_inj'. intros n Hn. rewrite testbit_set by done.
    case_decide as Hnr; [by subst|done].
Qed.

Lemma byte_land_ones (b : Z) : 0 <= b < 256 <-> Z.land b (Z.ones 8) = b.
Proof.
  rewrite Z.land_ones by lia. change (2 ^ 8) with 256. split.
  - intros Hb. by apply Z.mod_small.
  - intros <-. apply Z.mod_pos_bound. lia.
Qed.

Lemma byte_lor (b m : Z) :
  0 <= b < 256 -> 0 <= m < 256 -> 0 <= Z.lor b m < 256.
Proof.
  rewrite !byte_land_ones. intros Hb Hm.
  by rewrite Z.land_lor_distr_l, Hb, Hm.
Qed.

Lemma byte_ldiff (b m : Z) : 0 <= b < 256 -> 0 <= Z.ldiff b m < 256.
Proof.
  rewrite !byte_land_ones. intros Hb.
  apply Z.bits_inj'. intros n Hn.
  assert (Z.testbit b n = Z.testbit b n && Z.testbit (Z.ones 8) n) as Hbit
    by (rewrite <- Hb at 1; apply Z.land_spec).
  rewrite Z.land_spec, Z.ldiff_spec.
  destruct (Z.testbit b n), (Z.testbit (Z.ones 8) n), (Z.testbit m n); done.
Qed.

Lemma shl8_one_byte (k : Z) : 0 <= k -> 0 <= GoInt.shl8 1 k < 256.
Proof.
  intros Hk. destruct (shl8_one_cases k Hk) as [->|[Hk8 ->]]; [lia|].
  split; [apply Z.pow_nonneg; lia|].
  change 256 with (2 ^ 8). apply Z.pow_lt_mono_r; lia.
Qed.

(** X4. Writing back the value a read returned changes nothing: for
    every avatar and every [(x,y)], in bounds or not, when [GetPixel]
    returns [v] then [SetPixel] with [v] returns the avatar as it was,
    buffer included. *)
Theorem X4_write_back (a : Avatar) (x y : Z) (v : bool) :
  GetPixel a x y = Some v -> SetPixel a x y v = Some a.
Proof.
  unfold GetPixel, SetPixel. destruct (out_of_bounds a x y); [done|].
  cbv zeta. destruct (index (Pixels a) _) as [b|] eqn:Hi; [|done].
  intros [= <-]. destruct a as [W H P]. cbn [Width Height Pixels] in *.
  do 2 f_equal. apply list_insert_id.
  unfold index in Hi. destruct (_ <? 0); [done|]. rewrite Hi. f_equal.
  symmetry. apply mask_write_back.
  destruct (shl8_one_cases _ (bit_idx_nonneg
                                (pixel_idx (mkAvatar W H P) x y)))
    as [->|[Hk ->]]; [by left|].
  right. eexists. split; [|done]. lia.
Qed.

Lemma X4_write_back_witness :
  SetPixel {| Width := 3; Height := 3; Pixels := [170; 1] |} 1 0 true
  = Some {| Width := 3; Height := 3; Pixels := [170; 1] |}.
Proof.
  apply (X4_write_back {| Width := 3; Height := 3; Pixels := [170; 1] |}).
  vm_compute. reflexivity.
Defined.

(** X5. [SetPixel] keeps the buffer a slice of bytes: for every avatar
    whose buffer elements lie in [0, 256), whatever the dimensions and
    the arguments, the elements of the buffer after a write lie in
    [0, 256) too. *)
Theorem X5_write_keeps_bytes (a a' : Avatar) (x y : Z) (v : bool) :
  is_bytes (Pixels a) -> SetPixel a x y v = Some a' -> is_bytes (Pixels a').
Proof.
  intros Hbytes. unfold SetPixel. destruct (out_of_bounds a x y).
  - by intros [= <-].
  - cbv zeta. destruct (index (Pixels a) _) as [b|] eqn:Hi; [|done].
    intros [= <-]. cbn [Pixels]. apply Forall_insert; [done|].
    unfold index in Hi. destruct (_ <? 0); [done|].
    assert (0 <= b < 256) as Hb
      by (eapply (Forall_lookup_1 _ _ _ _ Hbytes); done).
    pose proof (shl8_one_byte _ (bit_idx_nonneg (pixel_idx a x y))).
    destruct v; [by apply byte_lor|by apply byte_ldiff].
Qed.

Lemma X5_write_keeps_bytes_witness :
  is_bytes (Pixels {| Width := 3; Height := 3; Pixels := [174; 1] |}).
Proof.
  apply (X5_write_keeps_bytes
           {| Width := 3; Height := 3; Pixels := [170; 1] |} _ 2 0 true).
  - repeat constructor; lia.
  - vm_compute. reflexivity.
Defined.

(** ** The fills, outcome by outcome *)

(** X6. When [width*height + 7] does not overflow, a successful random
    fill has made exactly one read of the entropy source, of
    [ceil(width*height/8)] bytes; the buffer is what that read
    returned, and pixel [(x,y)] is bit [(y*width+x) mod 8] of byte
    [(y*width+x) / 8] of it. *)
Theorem X6_random_fill_pixels (w h : Z) (e e' : Entropy) (a : Avatar) :
  0 < w -> 0 < h -> no_overflow w h ->
  GenerateAvatar w h e = (Return (Some a) None, e') ->
  let n := Z.to_nat (ceil8 (w * h)) in
  Pixels a = take n (pool e)
  /\ length (Pixels a) = n
  /\ e' = {| pool := drop n (pool e); reads := S (reads e) |}
  /\ forall x y, 0 <= x < w -> 0 <= y < h ->
       GetPixel a x y = Some (buffer_bit (pool e) (y * w + x)).
Proof.
  intros Hw Hh Hfit Hgen n.
  pose proof (GenerateAvatar_spec w h e Hw Hh Hfit) as Hspec.
  rewrite Hgen in Hspec. cbv zeta in Hspec. fold n in Hspec.
  destruct Hspec as (Hlen & -> & Hs & ->). cbn [Pixels].
  split; [done|]. split; [rewrite length_take; by apply Nat.min_l|].
  split; [done|].
  intros x y Hx Hy. destruct Hs as (_ & _ & Hp & Ha).
  assert (in_bounds {| Width := w; Height := h;
                       Pixels := take n (pool e) |} x y) as Hin by done.
  rewrite (GetPixel_in_bounds _ Hp Ha x y Hin). cbn [Width Pixels].
  pose proof (byte_idx_in_buffer _ Hp x y Hin) as Hb.
  cbn [Width Pixels] in Hb. unfold len in Hb. rewrite length_take in Hb.
  unfold buffer_bit. by rewrite lookup_total_take, decide_True by lia.
Qed.

Lemma X6_random_fill_pixels_witness :
  GetPixel {| Width := 3; Height := 3; Pixels := [170; 85] |} 1 0
  = Some (buffer_bit [170; 85; 7] (0 * 3 + 1)).
Proof.
  destruct (X6_random_fill_pixels 3 3 (mkEntropy [170; 85; 7] 0)
              (mkEntropy [7] 1)
              {| Width := 3; Height := 3; Pixels := [170; 85] |})
    as (_ & _ & _ & Hget).
  - lia.
  - lia.
  - unfold no_overflow, GoInt.max_int. lia.
  - vm_compute. reflexivity.
  - apply Hget; lia.
Defined.

(** X7. When the random fill returns an avatar, when
    [width*height + 7] does not overflow: it panics, before any read,
    when the buffer of [ceil(width*height/8)] bytes is larger than the
    runtime allocates; it returns an avatar of the requested shape,
    after one read, when the buffer can be allocated and the source
    supplies that many bytes; and it returns an avatar in no other
    case. *)
Theorem X7_random_fill_outcomes (w h : Z) (e : Entropy) :
  0 < w -> 0 < h -> no_overflow w h ->
  let n := ceil8 (w * h) in
  (maxAlloc < n -> GenerateAvatar w h e = (Panic, e))
  /\ (n <= maxAlloc -> n <= len (pool e) ->
      exists a,
        GenerateAvatar w h e
        = (Return (Some a) None,
           {| pool := drop (Z.to_nat n) (pool e); reads := S (reads e) |})
        /\ shaped w h a)
  /\ (forall a err e',
        GenerateAvatar w h e = (Return (Some a) err, e') ->
        n <= maxAlloc /\ n <= len (pool e)).
Proof.
  intros Hw Hh Hfit n. unfold GenerateAvatar.
  destruct (Z.leb_spec w 0); [lia|]. destruct (Z.leb_spec h 0); [lia|].
  cbn [orb]. cbv zeta. rewrite bytesLen_exact by done. fold n.
  assert (0 <= w * h) as Hbits by nia.
  pose proof (ceil8_nonneg _ Hbits) as Hn. fold n in Hn.
  rewrite make_bytes_spec by done. unfold len.
  split_and!.
  - intros. by rewrite decide_False by lia.
  - intros. rewrite decide_True by lia. unfold rand_Read.
    rewrite length_replicate. rewrite decide_True by lia.
    eexists. split; [done|].
    apply shaped_fresh; [rewrite length_take; lia|done|done].
  - intros a err e'. case_decide as Hmax; [|done]. unfold rand_Read.
    rewrite length_replicate. case_decide as Hpool; [|done].
    intros _. lia.
Qed.

Lemma X7_random_fill_outcomes_witness :
  exists a,
    GenerateAvatar 3 3 (mkEntropy [170; 85; 7] 0)
    = (Return (Some a) None,
       {| pool := drop (Z.to_nat (ceil8 (3 * 3))) [170; 85; 7];
          reads := 1 |})
    /\ shaped 3 3 a.
Proof.
  destruct (X7_random_fill_outcomes 3 3 (mkEntropy [170; 85; 7] 0))
    as (_ & Henough & _).
  - lia.
  - lia.
  - unfold no_overflow, GoInt.max_int. lia.
  - apply Henough.
    + vm_compute. discriminate.
    + vm_compute. discriminate.
Defined.

(** X8. When the mirrored fill returns an avatar, when
    [width*height + 7] does not overflow: it panics, before any read,
    when the buffer of [ceil(width*height/8)] bytes is larger than the
    runtime allocates; it returns an avatar of the requested shape when
    the buffer can be allocated and the source supplies
    [height * ceil(width/2)] bytes; and it returns an avatar in no
    other case, so a grid filled in part is never handed out. *)
Theorem X8_mirrored_fill_outcomes (w h : Z) (e : Entropy) :
  0 < w -> 0 < h -> no_overflow w h ->
  (maxAlloc < ceil8 (w * h) -> GenerateSymmetric w h e = (Panic, e))
  /\ (ceil8 (w * h) <= maxAlloc -> h * half_width w <= len (pool e) ->
      exists a e',
        GenerateSymmetric w h e = (Return (Some a) None, e')
        /\ shaped w h a)
  /\ (forall a err e',
        GenerateSymmetric w h e = (Return (Some a) err, e') ->
        ceil8 (w * h) <= maxAlloc /\ h * half_width w <= len (pool e)).
Proof.
  intros Hw Hh Hfit.
  pose proof (GenerateSymmetric_spec w h e Hw Hh Hfit) as Hspec.
  cbv zeta in Hspec.
  assert (0 < half_width w)
    by (unfold half_width; Z.div_mod_to_equations; lia).
  assert ((Z.to_nat h * Z.to_nat (half_width w))%nat
          = Z.to_nat (h * half_width w)) as Hn
    by (rewrite Z2Nat.inj_mul by lia; done).
  rewrite Hn in Hspec. unfold len. split.
  { intros Hmax. unfold GenerateSymmetric.
    destruct (Z.leb_spec w 0); [lia|]. destruct (Z.leb_spec h 0); [lia|].
    cbn [orb]. rewrite bytesLen_exact by done.
    rewrite make_bytes_spec by (apply ceil8_nonneg; nia).
    by rewrite decide_False by lia. }
  destruct (GenerateSymmetric w h e) as [[[a|] [err|]|] e'];
    try done.
  - destruct Hspec as (Hlen & Hs & _). split.
    + intros. by exists a, e'.
    + intros a0 err0 e0 _. destruct Hs as (<- & <- & Hp & Ha).
      red in Hp, Ha. unfold len in *. lia.
  - destruct Hspec as (Hlen & ->). split; [intros; lia|done].
  - destruct Hspec as (Hmax & ->). split; [intros; lia|done].
Qed.

Lemma X8_mirrored_fill_outcomes_witness :
  exists a e',
    GenerateSymmetric 3 2 (mkEntropy [1; 0; 1; 1] 0)
    = (Return (Some a) None, e')
    /\ shaped 3 2 a.
Proof.
  destruct (X8_mirrored_fill_outcomes 3 2 (mkEntropy [1; 0; 1; 1] 0))
    as (_ & Henough & _).
  - lia.
  - lia.
  - unfold no_overflow, GoInt.max_int. lia.
  - apply Henough.
    + vm_compute. discriminate.
    + vm_compute. discriminate.
Defined.

(** X9. The mirrored fill uses the low bit of each random byte and
    nothing else: when [width*height + 7] does not overflow and two
    sources supply bytes with the same low bits, a fill that succeeds
    on one succeeds on the other, and the two grids agree on every
    pixel. *)
Theorem X9_mirrored_fill_low_bits (w h : Z) (e1 e1' e2 : Entropy)
    (a1 : Avatar) :
  0 < w -> 0 < h -> no_overflow w h ->
  low_bit <$> pool e1 = low_bit <$> pool e2 ->
  GenerateSymmetric w h e1 = (Return (Some a1) None, e1') ->
  exists a2 e2',
    GenerateSymmetric w h e2 = (Return (Some a2) None, e2')
    /\ forall x y, 0 <= x < w -> 0 <= y < h ->
         GetPixel a2 x y = GetPixel a1 x y.
Proof.
  intros Hw Hh Hfit Hlow Hgen1.
  pose proof (GenerateSymmetric_spec w h e1 Hw Hh Hfit) as Hspec1.
  rewrite Hgen1 in Hspec1. cbv zeta in Hspec1.
  destruct Hspec1 as (Hlen1 & Hs1 & _ & _ & Hget1).
  assert (length (pool e2) = length (pool e1)) as Hlen
    by (apply (f_equal length) in Hlow; by rewrite !length_fmap in Hlow).
  assert (0 < half_width w) as Hhw
    by (unfold half_width; Z.div_mod_to_equations; lia).
  assert ((Z.to_nat h * Z.to_nat (half_width w))%nat
          = Z.to_nat (h * half_width w)) as Hn
    by (rewrite Z2Nat.inj_mul by lia; done).
  assert (ceil8 (w * h) <= maxAlloc) as Hmax.
  { destruct Hs1 as (<- & <- & Hp & Ha). red in Hp, Ha. lia. }
  destruct (GenerateSymmetric_succeeds w h e2 Hw Hh Hfit Hmax)
    as (a2 & e2' & Hgen2); [unfold len; lia|].
  pose proof (GenerateSymmetric_spec w h e2 Hw Hh Hfit) as Hspec2.
  rewrite Hgen2 in Hspec2. cbv zeta in Hspec2.
  destruct Hspec2 as (_ & _ & _ & _ & Hget2).
  exists a2, e2'. split; [done|]. intros x y Hx Hy.
  rewrite Hget1, Hget2 by done. f_equal.
  pose proof (mirror_col_range w x Hx) as Hcol.
  set (i := Z.to_nat (y * half_width w + mirror_col w x)).
  assert (i < length (pool e1))%nat as Hi.
  { assert (y * half_width w + mirror_col w x < h * half_width w) by nia.
    assert (0 <= y * half_width w) by (apply Z.mul_nonneg_nonneg; lia).
    subst i. lia. }
  fold i. transitivity ((low_bit <$> pool e2) !!! i).
  - symmetry. apply list_lookup_total_fmap. lia.
  - rewrite <- Hlow. apply list_lookup_total_fmap. lia.
Qed.

Lemma X9_mirrored_fill_low_bits_witness :
  exists a2 e2',
    GenerateSymmetric 3 2 (mkEntropy [255; 4; 9; 3] 0)
    = (Return (Some a2) None, e2')
    /\ GetPixel a2 1 0
       = GetPixel {| Width := 3; Height := 2; Pixels := [61] |} 1 0.
Proof.
  destruct (X9_mirrored_fill_low_bits 3 2 (mkEntropy [1; 0; 1; 1] 0)
              (mkEntropy [] 4) (mkEntropy [255; 4; 9; 3] 0)
              {| Width := 3; Height := 2; Pixels := [61] |})
    as (a2 & e2' & Hgen & Hget).
  - lia.
  - lia.
  - unfold no_overflow, GoInt.max_int. lia.
  - vm_compute. reflexivity.
  - vm_compute. reflexivity.
  - exists a2, e2'. split; [exact Hgen|]. apply Hget; lia.
Defined.

(** ** What the generators return, on every input *)

Lemma symmetric_body_stop (w x y : Z) (a : Avatar) (e e' : Entropy)
    (r : result Avatar) :
  symmetric_body w x y a e = Stop r e' ->
  r = Panic \/ r = Return None (Some read_failed).
Proof.
  unfold symmetric_body. change (make_bytes 1) with (Some [0]).
  cbv beta iota. rewrite rand_Read_one.
  destruct (pool e) as [|b0 rest]; [intros [= <- _]; by right|].
  change (index [b0] 0) with (Some b0). cbv beta iota zeta.
  destruct (SetPixel a x y _) as [a1|]; [|intros [= <- _]; by left].
  destruct (_ =? x); [done|].
  destruct (SetPixel a1 _ y _); [done|intros [= <- _]; by left].
Qed.

Lemma symmetric_row_stop (n : nat) (w x y : Z) (a : Avatar) (e e' : Entropy)
    (r : result Avatar) :
  symmetric_row n w x y a e = Stop r e' ->
  r = Panic \/ r = Return None (Some read_failed).
Proof.
  revert x a e. induction n as [|n IH]; intros x a e; cbn [symmetric_row].
  - done.
  - destruct (symmetric_body w x y a e) as [a1 e1|r1 e1] eqn:Hbody.
    + apply IH.
    + intros [= <- _]. by eapply symmetric_body_stop.
Qed.

Lemma symmetric_rows_stop (m : nat) (w hw y : Z) (a : Avatar)
    (e e' : Entropy) (r : result Avatar) :
  symmetric_rows m w hw y a e = Stop r e' ->
  r = Panic \/ r = Return None (Some read_failed).
Proof.
  revert y a e. induction m as [|m IH]; intros y a e; cbn [symmetric_rows].
  - done.
  - destruct (symmetric_row _ w 0 y a e) as [a1 e1|r1 e1] eqn:Hrow.
    + apply IH.
    + intros [= <- _]. by eapply symmetric_row_stop.
Qed.

Lemma GenerateAvatar_one_of (w h : Z) (e : Entropy) :
  one_of_value_and_error (fst (GenerateAvatar w h e)).
Proof.
  unfold GenerateAvatar. destruct (_ || _); [done|]. cbv zeta.
  destruct (make_bytes _) as [pixels|]; [|done].
  by destruct (rand_Read pixels e) as [[? [?|]] ?].
Qed.

Lemma GenerateSymmetric_one_of (w h : Z) (e : Entropy) :
  one_of_value_and_error (fst (GenerateSymmetric w h e)).
Proof.
  unfold GenerateSymmetric. destruct (_ || _); [done|].
  destruct (make_bytes _) as [pixels|]; [|done]. cbv zeta.
  destruct (symmetric_rows _ _ _ _ _ _) as [a' e'|r e'] eqn:Hrows; [done|].
  by apply symmetric_rows_stop in Hrows as [->| ->].
Qed.

(** X10. On every input, overflowing dimensions included, each
    generator that returns hands back exactly one of a result and an
    error, never both and never neither; and a keyed avatar that
    [GenerateKeyAvatar] returns carries the key it was given and an
    avatar that is not nil. *)
Theorem X10_value_or_error (key method : string) (w h : Z) (e : Entropy) :
  one_of_value_and_error (fst (GenerateAvatar w h e))
  /\ one_of_value_and_error (fst (GenerateSymmetric w h e))
  /\ one_of_value_and_error (fst (GenerateKeyAvatar key w h method e))
  /\ forall ka err,
       fst (GenerateKeyAvatar key w h method e) = Return (Some ka) err ->
       Key ka = key /\ is_Some (KeyAvatar_Avatar ka).
Proof.
  pose proof (GenerateAvatar_one_of w h e) as Hrandom.
  pose proof (GenerateSymmetric_one_of w h e) as Hmirror.
  split; [done|]. split; [done|].
  rewrite GenerateKeyAvatar_keyed.
  assert (one_of_value_and_error
            (fst (if decide (method = "symmetric")
                  then GenerateSymmetric w h e
                  else GenerateAvatar w h e))) as Hfill
    by (by case_decide).
  destruct (if decide (method = "symmetric") then _ else _)
    as [[[a|] [err|]|] e']; cbn in Hfill |- *; try done.
  split; [done|]. intros ka err' [= <- _]. cbn. by split; [|eexists].
Qed.

(** X11. The key is a label and nothing more: with the same
    dimensions, method and entropy source, [GenerateKeyAvatar] under
    another key consumes the same entropy and returns the same error or
    the same avatar, paired with the other key. *)
Theorem X11_key_is_a_label (key key' method : string) (w h : Z)
    (e : Entropy) :
  GenerateKeyAvatar key' w h method e
  = match GenerateKeyAvatar key w h method e with
    | (Return (Some ka) None, e') =>
        (Return (Some {| Key := key';
                         KeyAvatar_Avatar := KeyAvatar_Avatar ka |}) None,
         e')
    | other => other
    end.
Proof.
  rewrite !GenerateKeyAvatar_keyed.
  by destruct (if decide (method = "symmetric") then _ else _)
    as [[[a|] [err|]|] e'].
Qed.

(** ** File names *)

Lemma append_nil_r (s : string) : s +:+ "" = s.
Proof.
  induction s as [|c s IH]; [done|]. rewrite append_String. by f_equal.
Qed.

Lemma append_cancel_r (s1 s2 t : string) : s1 +:+ t = s2 +:+ t -> s1 = s2.
Proof.
  revert s2. induction s1 as [|c s1 IH]; intros [|c' s2] Heq; [done|..].
  - apply (f_equal String.length) in Heq.
    rewrite !length_append in Heq. cbn in Heq. lia.
  - apply (f_equal String.length) in Heq.
    rewrite !length_append in Heq. cbn in Heq. lia.
  - rewrite !append_String in Heq. injection Heq as -> Heq.
    f_equal. by apply IH.
Qed.

Lemma folder_prefix_end (folder : string) :
  folder_prefix folder = ""
  \/ exists dir, folder_prefix folder = dir +:+ "/".
Proof.
  unfold folder_prefix. cbv zeta.
  destruct (foldl _ [] _) as [|el out].
  - destruct (match folder with "" => false | String c _ => _ end).
    + right. by exists "".
    + by left.
  - right. eexists. by rewrite <- append_assoc.
Qed.

(** The path of a key that holds no separator: what [Clean] keeps of
    the folder, then the file name as it is. *)
Lemma GetAvatarPath_file_name (folder key : string) :
  has_separator key = false ->
  GetAvatarPath folder key = folder_prefix folder +:+ key +:+ ".png".
Proof.
  intros Hkey. pose proof (png_name_plain key Hkey) as Hpng.
  set (kp := key +:+ ".png") in *.
  assert (kp <> "") as Hkp by (by destruct Hpng as (_ & ? & _)).
  destruct folder as [|c folder].
  - unfold GetAvatarPath. fold kp. cbn [filepath.Join].
    change (String.eqb "" "") with true. cbv beta iota.
    apply String.eqb_neq in Hkp. rewrite Hkp.
    apply (filepath_facts.Clean_relative [kp]); [done|].
    by apply Forall_singleton.
  - unfold GetAvatarPath. fold kp. cbn [filepath.Join].
    change (String.eqb (String c folder) "") with false. cbv beta iota.
    rewrite (filepath_facts.strings_Join_cons (String c folder) [kp])
      by done.
    cbn [filepath.strings_Join].
    rewrite (append_String filepath.Separator).
    change ("" +:+ kp) with kp.
    unfold filepath.Clean, folder_prefix. rewrite append_String.
    rewrite <- append_String, filepath_facts.elements_append.
    destruct Hpng as [Hsep Hplain].
    rewrite (filepath_facts.elements_sep_free kp Hsep), foldl_app.
    cbn [foldl]. cbv zeta.
    set (rooted := filepath.IsPathSeparator c).
    set (out := foldl (filepath.clean_element rooted) []
                  (filepath.elements (String c folder))).
    rewrite filepath_facts.clean_element_plain by done. cbn [rev].
    assert (filepath.strings_Join (rev out ++ [kp]) "/"
            = match out with
              | [] => ""
              | _ => filepath.strings_Join (rev out) "/" +:+ "/"
              end +:+ kp) as Hbody.
    { destruct out as [|el out']; [done|].
      rewrite filepath_facts.strings_Join_snoc
        by (cbn [rev]; by destruct (rev out')).
      by rewrite append_assoc. }
    change (String filepath.Separator "") with "/". rewrite Hbody.
    destruct rooted.
    + by rewrite append_String.
    + change ("" +:+ ?s) with s.
      destruct (String.eqb_spec
                  (match out with
                   | [] => ""
                   | _ => filepath.strings_Join (rev out) "/" +:+ "/"
                   end +:+ kp) "") as [Hempty|]; [|done].
      apply (f_equal String.length) in Hempty.
      rewrite length_append in Hempty. destruct kp; [done|].
      cbn in Hempty. lia.
Qed.

(** X12. The file name survives the cleaning of the path: for every
    folder, clean or not, and every key that holds no separator,
    [GetAvatarPath] returns a prefix fixed by the folder alone, empty
    or ending in a separator, followed by exactly [key + .png]. *)
Theorem X12_file_name_kept (folder key : string) :
  has_separator key = false ->
  GetAvatarPath folder key = folder_prefix folder +:+ key +:+ ".png"
  /\ (folder_prefix folder = ""
      \/ exists dir, folder_prefix folder = dir +:+ "/").
Proof.
  intros Hkey. split; [by apply GetAvatarPath_file_name|].
  apply folder_prefix_end.
Qed.

Lemma X12_file_name_kept_witness :
  GetAvatarPath "./a/../b//c" "user123" = "b/c/" +:+ "user123" +:+ ".png".
Proof.
  apply (X12_file_name_kept "./a/../b//c" "user123"). reflexivity.
Defined.

(** X13. In one folder, different keys never share a file: for keys
    that hold no separator, [GetAvatarPath] with the same folder
    returns the same path only for the same key. *)
Theorem X13_keys_do_not_collide (folder key key' : string) :
  has_separator key = false -> has_separator key' = false ->
  GetAvatarPath folder key = GetAvatarPath folder key' -> key = key'.
Proof.
  intros Hkey Hkey'. rewrite !GetAvatarPath_file_name by done.
  intros Heq%String.app_inj. by apply append_cancel_r in Heq.
Qed.

Lemma X13_keys_do_not_collide_witness : "user123" = "user123".
Proof.
  apply (X13_keys_do_not_collide "./avatars" "user123" "user123");
    reflexivity.
Defined.

(** ** Rendering *)

Section Raster.

Variable a : Avatar.
Hypothesis Hpacked : packed a.
Hypothesis Halloc : allocated a.
Hypothesis Hwidth : 0 < Width a.
Hypothesis Hheight : 0 < Height a.
Hypothesis Hfits : Width a * Height a <= maxAlloc.

Lemma dims_small : Width a <= maxAlloc /\ Height a <= maxAlloc.
Proof. split; nia. Qed.

Lemma NewGray_bounds :
  image.NewGray (image.Rect 0 0 (Width a) (Height a))
  = Some {| image.Pix := replicate (Z.to_nat (Width a * Height a)) 0;
            image.Stride := Width a; image.Gray_Rect := raster_bounds a |}.
Proof.
  pose proof dims_small as [Hw Hh].
  unfold image.Rect.
  destruct (Z.gtb_spec 0 (Width a)); [lia|].
  destruct (Z.gtb_spec 0 (Height a)); [lia|]. fold (raster_bounds a).
  assert (image.Dx (raster_bounds a) = Width a) as Hdx.
  { unfold image.Dx, GoInt.sub. cbn. rewrite Z.sub_0_r.
    apply wrap_small. unfold GoInt.min_int, GoInt.max_int, maxAlloc in *.
    lia. }
  assert (image.Dy (raster_bounds a) = Height a) as Hdy.
  { unfold image.Dy, GoInt.sub. cbn. rewrite Z.sub_0_r.
    apply wrap_small. unfold GoInt.min_int, GoInt.max_int, maxAlloc in *.
    lia. }
  assert (image.mul3NonNeg 1 (Width a) (Height a) = Width a * Height a)
    as Hmul.
  { unfold image.mul3NonNeg, maxAlloc in *.
    destruct (Z.ltb_spec (Width a) 0); [lia|].
    destruct (Z.ltb_spec (Height a) 0); [lia|]. cbn [orb Z.ltb Z.compare].
    cbv zeta. rewrite Z.mul_1_l.
    rewrite (Z.div_small (Width a)), (Z.mod_small (Width a)) by lia.
    cbn [Z.eqb negb]. rewrite (Z.mod_small (Height a)) by lia.
    assert (0 <= Width a * Height a) by nia.
    rewrite (Z.div_small (Width a * Height a)),
      (Z.mod_small (Width a * Height a)) by lia.
    cbn [Z.eqb negb].
    rewrite wrap_small by (unfold GoInt.min_int, GoInt.max_int; lia).
    unfold GoInt.to_uint. rewrite Z.mod_small by lia.
    rewrite Z.eqb_refl. destruct (Z.ltb_spec (Width a * Height a) 0); [lia|].
    done. }
  unfold image.NewGray, image.pixelBufferLength. rewrite Hdx, Hdy, Hmul.
  assert (0 <= Width a * Height a) by nia.
  destruct (Z.ltb_spec (Width a * Height a) 0); [lia|].
  rewrite make_bytes_spec, decide_True by lia.
  unfold GoInt.mul. rewrite Z.mul_1_l, wrap_small; [done|].
  unfold GoInt.min_int, GoInt.max_int, maxAlloc in *. lia.
Qed.

Lemma SetGray_in_bounds (img : image.Gray) (x y c : Z) :
  raster_inv a img -> in_bounds a x y ->
  exists img',
    image.SetGray img x y c = Some img' /\ raster_inv a img'
    /\ image.Pix img' = <[Z.to_nat (y * Width a + x) := c]> (image.Pix img).
Proof.
  intros (Hstride & Hrect & Hlen) Hin.
  pose proof (idx_range a x y Hin) as Hr. pose proof dims_small as [Hw Hh].
  destruct Hin as [Hx Hy].
  unfold image.SetGray, image.In, image.PixOffset.
  rewrite Hrect, Hstride. cbn [image.Min_X image.Min_Y image.Max_X
                                 image.Max_Y raster_bounds].
  destruct (Z.leb_spec 0 x); [|lia].
  destruct (Z.ltb_spec x (Width a)); [|lia].
  destruct (Z.leb_spec 0 y); [|lia].
  destruct (Z.ltb_spec y (Height a)); [|lia]. cbn [andb negb]. cbv zeta.
  assert (GoInt.add (GoInt.mul (GoInt.sub y 0) (Width a))
                    (GoInt.mul (GoInt.sub x 0) 1) = y * Width a + x) as ->.
  { unfold GoInt.add, GoInt.mul, GoInt.sub, maxAlloc in *.
    rewrite !Z.sub_0_r, Z.mul_1_r.
    assert (0 <= y * Width a <= y * Width a + x) by nia.
    rewrite (wrap_small y), (wrap_small x)
      by (unfold GoInt.min_int, GoInt.max_int; lia).
    rewrite (wrap_small (y * Width a)), (wrap_small x)
      by (unfold GoInt.min_int, GoInt.max_int; lia).
    apply wrap_small. unfold GoInt.min_int, GoInt.max_int. lia. }
  unfold store. rewrite Hlen.
  destruct (Z.ltb_spec (y * Width a + x) 0); [lia|].
  destruct (Z.leb_spec (Width a * Height a) (y * Width a + x)); [lia|].
  cbn [orb]. eexists. split; [done|]. split; [|done].
  red. cbn [image.Stride image.Gray_Rect image.Pix].
  unfold len in *. by rewrite length_insert.
Qed.

Lemma render_pixel_spec (img : image.Gray) (x y : Z) :
  raster_inv a img -> in_bounds a x y ->
  exists img',
    render_pixel a x y img = Some img' /\ raster_inv a img'
    /\ image.Pix img'
       = <[Z.to_nat (y * Width a + x)
           := shade (buffer_bit (Pixels a) (y * Width a + x))]>
           (image.Pix img).
Proof.
  intros Hinv Hin. unfold render_pixel.
  rewrite (GetPixel_in_bounds a Hpacked Halloc x y Hin).
  destruct (buffer_bit _ _); by apply SetGray_in_bounds.
Qed.

Lemma render_row_spec (y : Z) (n : nat) :
  0 <= y < Height a ->
  forall (x : Z) (img : image.Gray),
    raster_inv a img -> 0 <= x -> x + Z.of_nat n <= Width a ->
    exists img',
      render_row n x y a img = Some img' /\ raster_inv a img'
      /\ forall x' y', in_bounds a x' y' ->
            image.Pix img' !! Z.to_nat (y' * Width a + x')
            = if decide (y' = y /\ x <= x' < x + Z.of_nat n)
              then Some (shade (buffer_bit (Pixels a) (y' * Width a + x')))
              else image.Pix img !! Z.to_nat (y' * Width a + x').
Proof.
  intros Hy. induction n as [|n IH]; intros x img Hinv Hx Hn.
  - exists img. split; [done|]. split; [done|].
    intros x' y' _. by rewrite decide_False by lia.
  - cbn [render_row]. pose proof dims_small as [Hw Hh].
    assert (in_bounds a x y) as Hin by (red; lia).
    destruct (render_pixel_spec img x y Hinv Hin)
      as (img1 & -> & Hinv1 & Hpix1).
    assert (GoInt.add x 1 = x + 1) as ->.
    { apply wrap_small.
      unfold GoInt.min_int, GoInt.max_int, maxAlloc in *. lia. }
    destruct (IH (x + 1) img1 Hinv1 ltac:(lia) ltac:(lia))
      as (img' & Hrow & Hinv' & Hpix').
    exists img'. split; [done|]. split; [done|].
    intros x' y' Hin'. rewrite Hpix' by done. rewrite Hpix1.
    pose proof (idx_range a x' y' Hin') as Hr'.
    pose proof (idx_range a x y Hin) as Hr.
    destruct Hin as [Hxa _], Hin' as [Hxa' _].
    pose proof (idx_inj (Width a) x y x' y' Hxa Hxa') as Hinj.
    destruct Hinv as (_ & _ & Hlen). unfold len in Hlen.
    destruct (decide (x' = x /\ y' = y)) as [[-> ->]|Hother].
    + rewrite list_lookup_insert_eq by lia.
      rewrite decide_False by lia. by rewrite decide_True by lia.
    + rewrite list_lookup_insert_ne by (intros Heq; apply Hother, Hinj; lia).
      repeat case_decide; done || lia.
Qed.

Lemma render_rows_spec (m : nat) :
  forall (y : Z) (img : image.Gray),
    raster_inv a img -> 0 <= y -> y + Z.of_nat m <= Height a ->
    exists img',
      render_rows m y a img = Some img' /\ raster_inv a img'
      /\ forall x' y', in_bounds a x' y' ->
            image.Pix img' !! Z.to_nat (y' * Width a + x')
            = if decide (y <= y' < y + Z.of_nat m)
              then Some (shade (buffer_bit (Pixels a) (y' * Width a + x')))
              else image.Pix img !! Z.to_nat (y' * Width a + x').
Proof.
  induction m as [|m IH]; intros y img Hinv Hy Hm.
  - exists img. split; [done|]. split; [done|].
    intros x' y' _. by rewrite decide_False by lia.
  - cbn [render_rows]. pose proof dims_small as [Hw Hh].
    destruct (render_row_spec y (Z.to_nat (Width a)) ltac:(lia) 0 img Hinv
                ltac:(lia) ltac:(lia)) as (img1 & -> & Hinv1 & Hpix1).
    assert (GoInt.add y 1 = y + 1) as ->.
    { apply wrap_small.
      unfold GoInt.min_int, GoInt.max_int, maxAlloc in *. lia. }
    destruct (IH (y + 1) img1 Hinv1 ltac:(lia) ltac:(lia))
      as (img' & Hrows & Hinv' & Hpix').
    exists img'. split; [done|]. split; [done|].
    intros x' y' Hin'. rewrite Hpix', Hpix1 by done.
    destruct Hin' as [Hx' Hy'].
    repeat case_decide; done || lia.
Qed.

Lemma raster_spec :
  exists img,
    raster a = Some img
    /\ image.Stride img = Width a /\ image.Gray_Rect img = raster_bounds a
    /\ len (image.Pix img) = Width a * Height a
    /\ forall x y, in_bounds a x y ->
          image.Pix img !! Z.to_nat (y * Width a + x)
          = Some (shade (buffer_bit (Pixels a) (y * Width a + x))).
Proof.
  unfold raster. rewrite NewGray_bounds.
  assert (0 <= Width a * Height a) by nia.
  destruct (render_rows_spec (Z.to_nat (Height a)) 0
              {| image.Pix := replicate (Z.to_nat (Width a * Height a)) 0;
                 image.Stride := Width a;
                 image.Gray_Rect := raster_bounds a |})
    as (img & Hrows & (Hstride & Hrect & Hlen) & Hpix).
  - red. cbn. unfold len. rewrite length_replicate. split_and!; done || lia.
  - lia.
  - lia.
  - exists img. split_and!; try done.
    intros x y Hin. rewrite Hpix by done.
    destruct Hin as [_ Hy]. by rewrite decide_True by lia.
Qed.

End Raster.

(** X14. Rendering a well-formed avatar: for positive dimensions, a
    buffer of [ceil(width*height/8)] bytes and a raster the runtime can
    allocate, [RenderPNG] does not panic and returns what the encoder
    makes of a [width] x [height] gray image in which pixel [(x,y)],
    stored at offset [y*width+x], is white (255) where [GetPixel]
    returns [true] and black (0) where it returns [false]; the image
    holds no other gray level. *)
Theorem X14_render_raster (P : Platform) (a : Avatar) :
  packed a -> allocated a -> 0 < Width a -> 0 < Height a ->
  Width a * Height a <= maxAlloc ->
  exists img,
    raster a = Some img
    /\ RenderPNG P a
       = match png_Encode P img with
         | (_, Some err) => Return None (Some err)
         | (bytes, None) => Return (Some bytes) None
         end
    /\ image.Stride img = Width a
    /\ image.Gray_Rect img = raster_bounds a
    /\ len (image.Pix img) = Width a * Height a
    /\ (forall x y, in_bounds a x y ->
          exists b, GetPixel a x y = Some b
                    /\ image.Pix img !! Z.to_nat (y * Width a + x)
                       = Some (shade b))
    /\ (forall i c, image.Pix img !! i = Some c -> c = 0 \/ c = 255).
Proof.
  intros Hp Ha Hw Hh Hfits.
  destruct (raster_spec a Hp Ha Hw Hh Hfits)
    as (img & Hraster & Hstride & Hrect & Hlen & Hpix).
  exists img. split; [done|].
  split; [unfold RenderPNG; by rewrite Hraster|].
  split; [done|]. split; [done|]. split; [done|]. split.
  - intros x y Hin. eexists. split; [by apply GetPixel_in_bounds|].
    by apply Hpix.
  - intros i c Hi. pose proof (lookup_lt_Some _ _ _ Hi) as Hlt.
    unfold len in Hlen.
    set (z := Z.of_nat i).
    assert (in_bounds a (z mod Width a) (z / Width a)) as Hin.
    { split; [apply Z.mod_pos_bound; lia|]. split.
      - apply Z.div_pos; lia.
      - apply Z.div_lt_upper_bound; lia. }
    specialize (Hpix _ _ Hin).
    replace (z / Width a * Width a + z mod Width a) with z in Hpix
      by (rewrite (Z.div_mod z (Width a)) at 1; lia).
    subst z. rewrite Nat2Z.id, Hi in Hpix. injection Hpix as ->.
    unfold shade. destruct (buffer_bit _ _); auto.
Qed.

Lemma X14_render_raster_witness :
  exists img,
    raster {| Width := 3; Height := 2; Pixels := [61] |} = Some img
    /\ RenderPNG memory_platform {| Width := 3; Height := 2; Pixels := [61] |}
       = Return (Some (image.Pix img)) None
    /\ image.Pix img !! Z.to_nat (0 * 3 + 1) = Some 0.
Proof.
  destruct (X14_render_raster memory_platform
              {| Width := 3; Height := 2; Pixels := [61] |})
    as (img & Hraster & Hrender & _ & _ & _ & Hpix & _).
  - reflexivity.
  - unfold allocated, len, maxAlloc; cbn; lia.
  - cbn; lia.
  - cbn; lia.
  - unfold maxAlloc; cbn; lia.
  - exists img. split; [exact Hraster|]. split; [exact Hrender|].
    destruct (Hpix 1 0) as (b & Hget & Hlookup).
    + unfold in_bounds; cbn; lia.
    + vm_compute in Hget. injection Hget as <-. exact Hlookup.
Defined.

(** ** Persistence *)

(** How a call of [SaveAvatar] that returns no error came about: the
    avatar was rendered, the folder made, and the bytes written to the
    path of the key. *)
Lemma SaveAvatar_success (P : Platform) (folder : string) (ka : KeyAvatar)
    (w w' : World P) :
  SaveAvatar P folder ka w = (Returns None, w') ->
  exists a pngData w1,
    KeyAvatar_Avatar ka = Some a
    /\ RenderPNG P a = Return pngData None
    /\ os_MkdirAll P folder perm_dir w = (None, w1)
    /\ os_WriteFile P (GetAvatarPath folder (Key ka))
         (default [] pngData) perm_file w1 = (None, w').
Proof.
  unfold SaveAvatar.
  destruct (KeyAvatar_Avatar ka) as [a|]; [|done].
  destruct (RenderPNG P a) as [pngData [err|]|] eqn:Hrender; [done| |done].
  destruct (os_MkdirAll P folder perm_dir w) as [[err|] w1] eqn:Hmkdir;
    [done|].
  cbv zeta. fold (GetAvatarPath folder (Key ka)).
  destruct (os_WriteFile _ _ _ _ _) as [err w2] eqn:Hwrite.
  intros [= -> ->]. by exists a, pngData, w1.
Qed.

(** X15. Saving a well-formed avatar (positive dimensions, a buffer of
    [ceil(width*height/8)] bytes, a raster the runtime can allocate)
    never panics, and does its work in this order: when the encoder
    fails its error is returned and the outside world is untouched;
    when the folder cannot be made that error is returned and nothing
    is written; otherwise the encoded image goes, with mode 0644, to
    exactly the path [GetAvatarPath] gives for the folder and the key. *)
Theorem X15_save_steps (P : Platform) (folder : string) (ka : KeyAvatar)
    (a : Avatar) (w : World P) :
  KeyAvatar_Avatar ka = Some a ->
  packed a -> allocated a -> 0 < Width a -> 0 < Height a ->
  Width a * Height a <= maxAlloc ->
  exists img,
    raster a = Some img
    /\ match png_Encode P img with
       | (_, Some err) => SaveAvatar P folder ka w = (Returns (Some err), w)
       | (bytes, None) =>
           match os_MkdirAll P folder perm_dir w with
           | (Some err, w1) =>
               SaveAvatar P folder ka w = (Returns (Some err), w1)
           | (None, w1) =>
               SaveAvatar P folder ka w
               = (Returns (fst (os_WriteFile P (GetAvatarPath folder (Key ka))
                                  bytes perm_file w1)),
                  snd (os_WriteFile P (GetAvatarPath folder (Key ka))
                         bytes perm_file w1))
           end
       end.
Proof.
  intros Hka Hp Ha Hw Hh Hfits.
  destruct (raster_spec a Hp Ha Hw Hh Hfits) as (img & Hraster & _).
  exists img. split; [done|].
  unfold SaveAvatar, RenderPNG. rewrite Hka, Hraster.
  destruct (png_Encode P img) as [bytes [err|]]; [done|].
  destruct (os_MkdirAll P folder perm_dir w) as [[err|] w1]; [done|].
  cbv zeta. fold (GetAvatarPath folder (Key ka)). cbn [default].
  by destruct (os_WriteFile _ _ _ _ _).
Qed.

Lemma X15_save_steps_witness :
  SaveAvatar memory_platform "avatars"
    {| Key := "user123";
       KeyAvatar_Avatar := Some {| Width := 3; Height := 2;
                                   Pixels := [61] |} |} []
  = (Returns None, [("avatars/user123.png", [255; 0; 255; 255; 255; 255])]).
Proof.
  destruct (X15_save_steps memory_platform "avatars"
              {| Key := "user123";
                 KeyAvatar_Avatar := Some {| Width := 3; Height := 2;
                                             Pixels := [61] |} |}
              {| Width := 3; Height := 2; Pixels := [61] |} [])
    as (img & Hraster & Hsave).
  - reflexivity.
  - reflexivity.
  - unfold allocated, len, maxAlloc; cbn; lia.
  - cbn; lia.
  - cbn; lia.
  - unfold maxAlloc; cbn; lia.
  - vm_compute in Hraster. injection Hraster as <-. exact Hsave.
Defined.

(** X16. [SaveAvatar] and [DeleteAvatar] agree on the file: on every
    platform where a file that has just been written can be removed, an
    avatar that has just been saved without error is deleted without
    error by [DeleteAvatar] with the same folder and the key of the
    avatar. *)
Theorem X16_delete_after_save (P : Platform) (folder : string)
    (ka : KeyAvatar) (w w' : World P) :
  (forall path data mode w0 w1,
     os_WriteFile P path data mode w0 = (None, w1) ->
     fst (os_Remove P path w1) = None) ->
  SaveAvatar P folder ka w = (Returns None, w') ->
  fst (DeleteAvatar P folder (Key ka) w') = Returns None.
Proof.
  intros Hremovable Hsave.
  apply SaveAvatar_success in Hsave as (a & pngData & w1 & _ & _ & _ & Hwrite).
  apply Hremovable in Hwrite.
  unfold DeleteAvatar. cbv zeta. fold (GetAvatarPath folder (Key ka)).
  destruct (os_Remove P _ w') as [err w'']. cbn in *. by subst.
Qed.

Lemma memory_remove_written (path : string) (data : list Z)
    (files : list (string * list Z)) :
  remove_file path ((path, data) :: files) = Some files.
Proof. cbn [remove_file]. by rewrite String.eqb_refl. Qed.

Lemma X16_delete_after_save_witness :
  fst (DeleteAvatar memory_platform "avatars" "user123"
         [("avatars/user123.png", [255; 0; 255; 255; 255; 255])])
  = Returns None.
Proof.
  apply (X16_delete_after_save memory_platform "avatars"
           {| Key := "user123";
              KeyAvatar_Avatar := Some {| Width := 3; Height := 2;
                                          Pixels := [61] |} |} []).
  - intros path data mode w0 w1 [= <-]. cbn [os_Remove memory_platform].
    by rewrite memory_remove_written.
  - vm_compute. reflexivity.
Defined.

(** ** Markup *)

Lemma count_char_append (c : ascii) (s1 s2 : string) :
  count_char c (s1 +:+ s2) = (count_char c s1 + count_char c s2)%nat.
Proof.
  induction s1 as [|c' s1 IH]; [done|].
  rewrite append_String. cbn [count_char]. rewrite IH. lia.
Qed.

Lemma count_dquote_uint (d : Decimal.uint) :
  count_char dquote (NilEmpty.string_of_uint d) = O.
Proof.
  induction d; cbn [NilEmpty.string_of_uint count_char]; by rewrite ?IHd.
Qed.

Lemma count_dquote_fmt_d (n : Z) : count_char dquote (fmt_d n) = O.
Proof.
  unfold fmt_d, NilZero.string_of_int, NilZero.string_of_uint.
  destruct (Z.to_int n) as [d|d]; cbn [count_char];
    destruct d; try done; apply count_dquote_uint.
Qed.

(** X17. [GetAvatarHTML] escapes nothing: the tag holds the eight
    double quotes of its template, each double quote of the base URL
    once and each double quote of the key twice; so its four attributes
    are delimited as written exactly when neither argument holds a
    double quote. The two numbers never add one. *)
Theorem X17_markup_quotes (baseURL key : string) (width height : Z) :
  count_char dquote (GetAvatarHTML baseURL key width height)
  = (8 + count_char dquote baseURL + 2 * count_char dquote key)%nat.
Proof.
  unfold GetAvatarHTML.
  repeat (rewrite ?count_char_append; cbn [count_char]).
  rewrite !count_dquote_fmt_d.
  repeat match goal with
         | |- context [Ascii.eqb dquote ?c] =>
             let b := eval vm_compute in (Ascii.eqb dquote c) in
             change (Ascii.eqb dquote c) with b
         end.
  cbv beta iota. lia.
Qed.

(** ** From generation to the saved image *)

Lemma SaveAvatar_returns (P : Platform) (folder : string) (ka : KeyAvatar)
    (a : Avatar) (w : World P) :
  KeyAvatar_Avatar ka = Some a ->
  packed a -> allocated a -> 0 < Width a -> 0 < Height a ->
  Width a * Height a <= maxAlloc ->
  exists err, fst (SaveAvatar P folder ka w) = Returns err.
Proof.
  intros Hka Hp Ha Hw Hh Hfits.
  destruct (raster_spec a Hp Ha Hw Hh Hfits) as (img & Hraster & _).
  unfold SaveAvatar, RenderPNG. rewrite Hka, Hraster.
  destruct (png_Encode P img) as [bytes [err|]]; [by eexists|].
  destruct (os_MkdirAll P folder perm_dir w) as [[err|] w1]; [by eexists|].
  cbv zeta. destruct (os_WriteFile _ _ _ _ _). by eexists.
Qed.

Lemma generated_shape (w h : Z) (method : string) (e e' : Entropy)
    (avatar : option Avatar) :
  0 < w -> 0 < h -> no_overflow w h ->
  (if decide (method = "symmetric") then GenerateSymmetric w h e
   else GenerateAvatar w h e) = (Return avatar None, e') ->
  exists a, avatar = Some a /\ shaped w h a.
Proof.
  intros Hw Hh Hfit. case_decide; intros Hgen.
  - pose proof (GenerateSymmetric_spec w h e Hw Hh Hfit) as Hspec.
    rewrite Hgen in Hspec. destruct avatar as [a|]; [|done].
    destruct Hspec as (_ & Hs & _). by exists a.
  - pose proof (GenerateAvatar_spec w h e Hw Hh Hfit) as Hspec.
    rewrite Hgen in Hspec. destruct avatar as [a|]; [|done].
    destruct Hspec as (_ & _ & Hs & _). by exists a.
Qed.

(** X18. Generating and then saving never panics: when
    [width*height + 7] does not overflow and the raster of
    [width*height] bytes can be allocated, every keyed avatar that
    [GenerateKeyAvatar] returns, by either method, is saved by
    [SaveAvatar] with a plain return, an error or none, on every
    platform, folder and state of the outside world. *)
Theorem X18_generate_then_save (P : Platform) (key method folder : string)
    (w h : Z) (e e' : Entropy) (ka : KeyAvatar) (world : World P) :
  0 < w -> 0 < h -> no_overflow w h -> w * h <= maxAlloc ->
  GenerateKeyAvatar key w h method e = (Return (Some ka) None, e') ->
  exists err, fst (SaveAvatar P folder ka world) = Returns err.
Proof.
  intros Hw Hh Hfit Hmax. rewrite GenerateKeyAvatar_keyed.
  destruct (if decide (method = "symmetric") then _ else _)
    as [[avatar [err|]|] e1] eqn:Hfill; cbn [keyed]; try done.
  intros [= <- <-].
  destruct (generated_shape w h method e e1 avatar Hw Hh Hfit Hfill)
    as (a & -> & (<- & <- & Hp & Ha)).
  by apply (SaveAvatar_returns P folder _ a).
Qed.

Lemma X18_generate_then_save_witness :
  exists err,
    fst (SaveAvatar memory_platform "avatars"
           {| Key := "user123";
              KeyAvatar_Avatar := Some {| Width := 3; Height := 2;
                                          Pixels := [61] |} |} [])
    = Returns err.
Proof.
  apply (X18_generate_then_save memory_platform "user123" "symmetric"
           "avatars" 3 2 (mkEntropy [1; 0; 1; 1] 0) (mkEntropy [] 4)).
  - lia.
  - lia.
  - unfold no_overflow, GoInt.max_int. lia.
  - unfold maxAlloc. lia.
  - vm_compute. reflexivity.
Defined.

(** X19. The image of a mirrored avatar is mirrored: when
    [width*height + 7] does not overflow and the raster can be
    allocated, the image [RenderPNG] builds from the result of a
    successful mirrored fill has the same gray level at [(x,y)] and at
    [(width-1-x,y)], for every pixel. *)
Theorem X19_mirrored_image (w h : Z) (e e' : Entropy) (a : Avatar) :
  0 < w -> 0 < h -> no_overflow w h -> w * h <= maxAlloc ->
  GenerateSymmetric w h e = (Return (Some a) None, e') ->
  exists img,
    raster a = Some img
    /\ forall x y, 0 <= x < w -> 0 <= y < h ->
         image.Pix img !! Z.to_nat (y * w + x)
         = image.Pix img !! Z.to_nat (y * w + (w - 1 - x)).
Proof.
  intros Hw Hh Hfit Hmax Hgen.
  pose proof (GenerateSymmetric_spec w h e Hw Hh Hfit) as Hspec.
  rewrite Hgen in Hspec. destruct Hspec as (_ & Hs & _ & _ & Hget).
  destruct Hs as (<- & <- & Hp & Ha).
  destruct (raster_spec a Hp Ha Hw Hh Hmax)
    as (img & Hraster & _ & _ & _ & Hpix).
  exists img. split; [done|]. intros x y Hx Hy.
  assert (in_bounds a x y) as Hin by done.
  assert (in_bounds a (Width a - 1 - x) y) as Hin' by (red; lia).
  rewrite !Hpix by done. do 2 f_equal.
  assert (Some (buffer_bit (Pixels a) (y * Width a + x))
          = Some (buffer_bit (Pixels a) (y * Width a + (Width a - 1 - x))))
    as [= ->]; [|done].
  rewrite <- !GetPixel_in_bounds by done. rewrite !Hget by lia.
  unfold mirror_col. do 5 f_equal. lia.
Qed.

Lemma X19_mirrored_image_witness :
  exists img,
    raster {| Width := 3; Height := 2; Pixels := [61] |} = Some img
    /\ image.Pix img !! Z.to_nat (1 * 3 + 0)
       = image.Pix img !! Z.to_nat (1 * 3 + (3 - 1 - 0)).
Proof.
  destruct (X19_mirrored_image 3 2 (mkEntropy [1; 0; 1; 1] 0)
              (mkEntropy [] 4)
              {| Width := 3; Height := 2; Pixels := [61] |})
    as (img & Hraster & Hpix).
  - lia.
  - lia.
  - unfold no_overflow, GoInt.max_int. lia.
  - unfold maxAlloc. lia.
  - vm_compute. reflexivity.
  - exists img. split; [exact Hraster|]. apply Hpix; lia.
Defined.

(** X20. [RenderPNG] panics on every avatar of positive dimensions
    with more pixels than the runtime allocates bytes, whatever its
    buffer holds: the image cannot be made. The grids that the fills
    return after an overflow of [width*height] are of this kind, so
    they can be neither rendered nor saved. *)
Theorem X20_render_oversized (P : Platform) (a : Avatar) :
  0 < Width a <= GoInt.max_int -> 0 < Height a <= GoInt.max_int ->
  maxAlloc < Width a * Height a ->
  RenderPNG P a = Panic
  /\ forall folder key w,
       SaveAvatar P folder {| Key := key; KeyAvatar_Avatar := Some a |} w
       = (Panics, w).
Proof.
  intros Hw Hh Hbig.
  assert (raster a = None) as Hraster.
  { unfold raster, image.Rect.
    destruct (Z.gtb_spec 0 (Width a)); [lia|].
    destruct (Z.gtb_spec 0 (Height a)); [lia|].
    unfold image.NewGray, image.pixelBufferLength, image.Dx, image.Dy,
      GoInt.sub.
    cbn [image.Min_X image.Min_Y image.Max_X image.Max_Y].
    rewrite !Z.sub_0_r.
    rewrite !wrap_small
      by (unfold GoInt.min_int, GoInt.max_int in *; lia).
    unfold image.mul3NonNeg, GoInt.max_int, maxAlloc in *.
    destruct (Z.ltb_spec (Width a) 0); [lia|].
    destruct (Z.ltb_spec (Height a) 0); [lia|]. cbn [orb Z.ltb Z.compare].
    cbv zeta. rewrite Z.mul_1_l.
    rewrite (Z.div_small (Width a)), (Z.mod_small (Width a)) by lia.
    cbn [Z.eqb negb]. rewrite (Z.mod_small (Height a)) by lia.
    destruct (Z.eqb_spec (Width a * Height a / 2 ^ 64) 0) as [Hhi|];
      [|done].
    cbn [negb].
    assert (0 <= Width a * Height a < 2 ^ 64) as Hlo
      by (split; [nia|]; apply Z.div_small_iff in Hhi; lia).
    rewrite (Z.mod_small (Width a * Height a)) by lia.
    destruct (Z.lt_ge_cases (Width a * Height a) (2 ^ 63)) as [Hfit|Hneg].
    - rewrite wrap_small by (unfold GoInt.min_int, GoInt.max_int; lia).
      unfold GoInt.to_uint. rewrite Z.mod_small by lia.
      rewrite Z.eqb_refl.
      destruct (Z.ltb_spec (Width a * Height a) 0); [lia|]. cbn [orb negb].
      destruct (Z.ltb_spec (Width a * Height a) 0); [lia|].
      unfold make_bytes, maxAlloc.
      destruct (Z.ltb_spec (Width a * Height a) 0); [lia|].
      destruct (Z.ltb_spec (2 ^ 48) (Width a * Height a)); [done|lia].
    - assert (GoInt.wrap (Width a * Height a) < 0) as Hwrap.
      { unfold GoInt.wrap.
        replace (Width a * Height a + 2 ^ 63)
          with (Width a * Height a - 2 ^ 63 + 1 * 2 ^ 64) by lia.
        rewrite Z.mod_add, Z.mod_small by lia. lia. }
      destruct (Z.ltb_spec (GoInt.wrap (Width a * Height a)) 0); [|lia].
      done. }
  assert (RenderPNG P a = Panic) as Hrender
    by (unfold RenderPNG; by rewrite Hraster).
  split; [done|]. intros folder key w.
  unfold SaveAvatar. cbn [KeyAvatar_Avatar]. by rewrite Hrender.
Qed.

Lemma X20_render_oversized_witness :
  RenderPNG memory_platform
    {| Width := 4294967296; Height := 4294967296; Pixels := [] |} = Panic.
Proof.
  apply (X20_render_oversized memory_platform
           {| Width := 4294967296; Height := 4294967296; Pixels := [] |}).
  - cbn. unfold GoInt.max_int. lia.
  - cbn. unfold GoInt.max_int. lia.
  - cbn. unfold maxAlloc. lia.
Defined.
